(** * mumax3: the web-GUI bridge of package engine (gui.go) and the
      httpfs client

    A shallow embedding of [engine/gui.go] and of the httpfs [Client], with
    the properties of the command-injection bridge, the busy flag, the cache
    breaker, the heartbeat, the quantity registry and the file client. *)

From Stdlib Require Import ZArith Lia Ascii String.
From stdpp Require Import base option list gmap strings sorting pretty relations.

Local Open Scope Z_scope.

(** ** Go's [int] on amd64: 64-bit two's complement *)


(** The value a Go [int] holds after an arithmetic operation whose
    mathematical result is [z]. *)
Definition wrap_int (z : Z) : Z := (z + 2 ^ 63) mod 2 ^ 64 - 2 ^ 63.

(** [fmt.Sprint] of an integer: its decimal digits, with a leading minus. *)
Definition Sprint_int (z : Z) : string := pretty z.

(** The one-character string holding a line feed. *)
Definition newline : string := String "010"%char EmptyString.

(** ** Outcome of a Go call: a normal return or a panic *)

Inductive Result (A : Type) : Type :=
| Ret (a : A)
| Panic (msg : string).
Arguments Ret {A} a.
Arguments Panic {A} msg.

Definition returned {A} (r : Result A) : bool :=
  match r with Ret _ => true | Panic _ => false end.

(** ** Package httpfs: the client *)

Module httpfs.

Record Response := mk_Response {
  StatusCode : Z;
  Header : gmap string (list string);
  Body : string;
}.

Record URL := mk_URL {
  Scheme : string;
  Host : string;
  Path : string;
  RawQuery : string;
}.

(** The standard library and the constant the client relies on. A pointer
    result is an [option], [None] being nil. *)
Class Net := {
  Request : Type;
  (** [http.NewRequest(method, URL, body)]: the request, or the error's text *)
  NewRequest : string → string → Request + string;
  (** [f.client.Do(req)]: the pair (resp, err) *)
  client_Do : Request → option Response * option string;
  (** net/http: when err is nil, resp is not *)
  client_Do_resp : ∀ req r, client_Do req = (r, None) → is_Some r;
  (** [fmt.Fscan(r, &v)] for an [int] v on a reader holding the given text:
      the value stored in v, or [None] when the scan fails and v is left
      as it was *)
  Fscan : string → option Z;
  (** [u.String()] *)
  URL_String : URL → string;
  (** [textproto.CanonicalMIMEHeaderKey], applied by [Header.Get] *)
  CanonicalHeaderKey : string → string;
  (** the header name declared elsewhere in the package *)
  X_ERROR : string;
}.

Definition StatusOK : Z := 200.
Definition StatusTeapot : Z := 418.

Inductive error :=
| ErrStatus (name : string) (status : Z) (x_error : string)
    (* httpfs open "name": status status: "x_error" *)
| ErrInvalidArgument (name : string).
    (* httpfs open "name": invalid argument *)

Section Client.
Context `{Net}.

Record Client := mk_Client { serverAddr : string }.

Record File := mk_File {
  client : Client;
  u : URL;
  name : string;
  fd : Z;
}.

Definition Header_Get (h : gmap string (list string)) (key : string) : string :=
  default "" (head (default [] (h !! CanonicalHeaderKey key))).

Definition panicOn (err : option string) : Result unit :=
  match err with
  | Some e => Panic e
  | None => Ret tt
  end.

Definition do (method URL : string) : Result (option Response) :=
  let '(req, eReq) := match NewRequest method URL with
                      | inl r => (Some r, None)
                      | inr e => (None, Some e)
                      end in
  match panicOn eReq, req with
  | Panic e, _ => Panic e
  | Ret _, None => Panic "invalid memory address or nil pointer dereference"
  | Ret _, Some req =>
      let '(resp, eResp) := client_Do req in
      match eResp with
      | Some e =>
          Ret (Some (mk_Response StatusTeapot {[X_ERROR := [e]]} ""))
      | None => Ret resp
      end
  end.

(** read int from body, -1 in case of error *)
Definition readUInt (r : string) : Z :=
  let v := -1 in
  match Fscan r with
  | Some v' => v'
  | None => v
  end.

(** [perm] is converted by [uint32(perm)] before printing. *)
Definition OpenFile (f : Client) (name : string) (flag : Z) (perm : Z)
  : Result (option File * option error) :=
  let q := "flag=" +:+ Sprint_int flag +:+ "&perm=" +:+ Sprint_int (perm `mod` 2 ^ 32) in
  let u := mk_URL "http" (serverAddr f) name q in
  match do "OPEN" (URL_String u) with
  | Panic e => Panic e
  | Ret None => Panic "invalid memory address or nil pointer dereference"
  | Ret (Some resp) =>
      if decide (StatusCode resp ≠ StatusOK) then
        Ret (None, Some (ErrStatus name (StatusCode resp) (Header_Get (Header resp) X_ERROR)))
      else
        let fd := readUInt (Body resp) in
        if decide (fd < 0) then
          Ret (None, Some (ErrInvalidArgument name))
        else
          let fdURL := mk_URL "http" (serverAddr f) (Sprint_int fd) "" in
          Ret (Some (mk_File f fdURL name fd), None)
  end.

Definition O_RDONLY : Z := 0.

Definition Open (f : Client) (name : string) : Result (option File * option error) :=
  OpenFile f name O_RDONLY 0.

(** The flags of package os as Linux, Windows and the other systems whose
    syscall package follows Linux have them; 0666 is written in octal. *)
Definition O_RDWR : Z := 2.
Definition O_CREATE : Z := 64.
Definition O_TRUNC : Z := 512.

Definition Create (f : Client) (name : string) : Result (option File * option error) :=
  OpenFile f name (Z.lor (Z.lor O_RDWR O_CREATE) O_TRUNC) 438.

End Client.

(** [net.ResolveTCPAddr("tcp", addr)], of which [Dial] only looks at the
    error: its text, or [None] when the address resolves. *)
Class Resolver := {
  ResolveTCPAddr : string → option string;
}.

(** [Dial]: the pair (client, error), the error being the text that
    [fmt.Errorf("httpfs: dial %v: %v", addr, err)] formats. *)
Definition Dial `{Resolver} (addr : string) : option Client * option string :=
  match ResolveTCPAddr addr with
  | Some err => (None, Some ("httpfs: dial " +:+ addr +:+ ": " +:+ err))
  | None => (Some (mk_Client addr), None)
  end.

(** A network for examples: request construction fails on a URL without a
    scheme, the server answers 200 with a descriptor on path [/ok], 404 on
    [/missing], a body that is no number on [/junk], and the round trip
    fails elsewhere. *)
Definition example_Do (req : string * string) : option Response * option string :=
  if decide (req.2 = "http://host/ok") then (Some (mk_Response 200 ∅ "3"), None)
  else if decide (req.2 = "http://host/missing") then (Some (mk_Response 404 ∅ ""), None)
  else if decide (req.2 = "http://host/junk") then (Some (mk_Response 200 ∅ "x"), None)
  else (None, Some "connection refused").

Lemma example_Do_resp req r : example_Do req = (r, None) → is_Some r.
Proof.
  unfold example_Do. repeat case_decide; intros [= <-]; eauto.
Qed.

#[export] Instance example_Net : Net := {|
  Request := string * string;
  NewRequest := λ m url, if decide (url = ":") then inr "parse :: missing protocol scheme"
                         else inl (m, url);
  client_Do := example_Do;
  client_Do_resp := example_Do_resp;
  Fscan := λ body, if decide (body = "3") then Some 3 else None;
  URL_String := λ u, Scheme u +:+ "://" +:+ Host u +:+ Path u;
  CanonicalHeaderKey := id;
  X_ERROR := "X-HTTPFS-Error";
|}.

(** A resolver for examples: only the empty address fails to resolve. *)
#[export] Instance example_Resolver : Resolver := {|
  ResolveTCPAddr := λ addr, if decide (addr = "") then Some "missing address" else None;
|}.

End httpfs.

(** ** Package engine: gui.go *)

Module engine.

(** ** External collaborators

    Floating-point numbers, their formatting, the script compiler, the
    mesh setter, the GUI toolkit's value conversions and the wall clock are
    not part of gui.go: the embedding is parametric in them. *)

Class Numerics := {
  float64 : Type;
  (** [fmt.Sprintf(format, x)] for a float [x] *)
  Sprintf : string → float64 → string;
  (** [fmt.Sprint(x)] for a float [x] *)
  Sprint_float : float64 → string;
  (** [x * 1e-9] *)
  nano : float64 → float64;
}.

Section Model.
Context `{Numerics}.

(** A value held by an element of the page ([interface{}] in the toolkit). *)
Inductive Value :=
| VString (s : string)
| VInt (n : Z)
| VFloat (x : float64).

(** [fmt.Sprint] of an element's value. *)
Definition Sprint (v : Value) : string :=
  match v with
  | VString s => s
  | VInt n => Sprint_int n
  | VFloat x => Sprint_float x
  end.

(** The fields of [Solver] and the globals that the refresh reads. *)
Record solver := mk_solver {
  NSteps : Z;
  Dt_si : float64;
  LastErr : float64;
  MaxErr : float64;
  MinDt : float64;
  MaxDt : float64;
  FixDt : float64;
}.

(** Everything the simulation thread owns. [rest] stands for the state the
    GUI never inspects (magnetization, mesh, kernels, ...). *)
Record Sim (Rest : Type) := mk_Sim {
  Solver : solver;
  Time : float64;
  Doc : gmap string string;   (* World.Doc *)
  memfree : Z;                (* first result of cu.MemGetInfo(), in bytes *)
  rest : Rest;
}.

End Model.

Arguments mk_Sim {_ Rest}.
Arguments Solver {_ Rest}.
Arguments Time {_ Rest}.
Arguments Doc {_ Rest}.
Arguments memfree {_ Rest}.
Arguments rest {_ Rest}.

Class Collaborators `{Numerics} := {
  Slicer : Type;
  Param : Type;
  Rest : Type;
  (** compiled script *)
  Tree : Type;
  (** [World.Compile]: the compiled unit or the error's text *)
  Compile : string → Tree + string;
  (** [tree.Format()] *)
  Format : Tree → string;
  (** [tree.Eval()]: the new simulation state, and the panic value if the
      evaluation panicked *)
  TreeEval : Tree → Sim Rest → Sim Rest * option string;
  (** [SetMesh(Nx, Ny, Nz, cx, cy, cz, pbc)] *)
  SetMesh : Z → Z → Z → float64 → float64 → float64 → list Z →
            Sim Rest → Sim Rest * option string;
  (** the toolkit's [IntValue] and [FloatValue] conversions of a value *)
  toInt : Value → Z;
  toFloat : Value → float64;
  (** [clock n] is what the [n]-th call of [time.Now()] in the run returns,
      as an instant on the time line *)
  clock : nat → Z;
}.


(** ** Case-insensitive sorting of names *)

(** [strings.ToLower] on the ASCII letters. *)
Definition lower_ascii (c : ascii) : ascii :=
  let n := N_of_ascii c in
  if ((65 <=? n) && (n <=? 90))%N then ascii_of_N (n + 32) else c.

Fixpoint ToLower (s : string) : string :=
  match s with
  | EmptyString => EmptyString
  | String c s' => String (lower_ascii c) (ToLower s')
  end.

(** [a] is not after [b] when both are lower-cased and compared byte by
    byte, as Go compares strings. *)
Definition no_case_le (a b : string) : Prop :=
  String.leb (ToLower a) (ToLower b) = true.

#[export] Instance no_case_le_dec : RelDecision no_case_le.
Proof. intros a b. unfold no_case_le. apply _. Defined.

(** Modelled from the spec: [sortNoCase], declared in another file of
    package engine, which sorts a slice of names case-insensitively. *)
Definition sortNoCase (names : list string) : list string :=
  merge_sort no_case_le names.

Section Gui.
Context `{Collaborators}.

(** ** Data *)

(** The closures handed to the simulation thread, one constructor per
    [func()] literal of gui.go. *)
Inductive Command :=
| CmdEval (cmd : string)     (* func() { Eval(cmd) } *)
| CmdSetMesh                 (* the setmesh closure *)
| CmdSnapshot.               (* the refresh closure of OnUpdate *)

#[export] Instance Command_eq_dec : EqDecision Command.
Proof. solve_decision. Defined.

(** A command travelling through the [Inject] channel; [wait] tells whether
    its sender blocks until it has run. *)
Record Task := mk_Task { task_cmd : Command; task_wait : bool }.

(** What an instrumented run records, in program order. *)
Inductive Event :=
| EvReq (n : Z)                         (* Req(n) *)
| EvTouch (t : Z)                       (* updateKeepAlive stored t *)
| EvBusy (b : bool)                     (* Busy() answered b *)
| EvPrintln (s : string)                (* log.Println(s) *)
| EvLogInput (s : string)               (* LogInput(s) *)
| EvLogOutput (s : string)              (* LogOutput(s) *)
| EvEval (t : Tree)                     (* tree.Eval() *)
| EvSetMesh                             (* SetMesh(...) *)
| EvSend (c : Command) (wait : bool)    (* c handed to the bridge *)
| EvRun (c : Command)                   (* the simulation thread starts c *)
| EvFault (c : Command) (msg : string)  (* a panic of c was caught *)
| EvRelease (c : Command)               (* the sender waiting for c resumes *)
| EvEvent (id : string).                (* the page served a browser event *)

(** [guistate]. The embedded [*gui.Page] is kept as the two maps the
    handlers use: the value and the disabled attribute of each element. *)
Record guistate := mk_guistate {
  values : gmap string Value;
  disabled : gmap string bool;
  Quants : gmap string Slicer;
  Params : gmap string Param;
  eventCacheBreaker : Z;
  busy : bool;
}.

(** The program state: the global [GUI], the heartbeat variable, the number
    of clock readings taken so far, the simulation, the content of the
    [Inject] channel and the recorded events. *)
Record World := mk_World {
  GUI : guistate;
  keepalive : Z;
  ticks : nat;
  sim : Sim Rest;
  Inject : list Task;
  trace : list Event;
}.

Definition with_GUI (f : guistate → guistate) (w : World) : World :=
  mk_World (f (GUI w)) (keepalive w) (ticks w) (sim w) (Inject w) (trace w).
Definition with_sim (f : Sim Rest → Sim Rest) (w : World) : World :=
  mk_World (GUI w) (keepalive w) (ticks w) (f (sim w)) (Inject w) (trace w).
Definition with_Inject (f : list Task → list Task) (w : World) : World :=
  mk_World (GUI w) (keepalive w) (ticks w) (sim w) (f (Inject w)) (trace w).
Definition record (e : Event) (w : World) : World :=
  mk_World (GUI w) (keepalive w) (ticks w) (sim w) (Inject w) (trace w ++ [e]).

(** ** The monad of Go calls: state passing, with panics *)

Definition M (A : Type) : Type := World → Result A * World.

#[export] Instance M_ret : MRet M := λ A a w, (Ret a, w).
#[export] Instance M_bind : MBind M := λ A B k m w,
  match m w with
  | (Ret a, w') => k a w'
  | (Panic msg, w') => (Panic msg, w')
  end.

(** [defer d] in front of a body [m]: [d] runs when [m] is left, also by a
    panic. *)
Definition defer {A} (d : M unit) (m : M A) : M A := λ w,
  let '(r, w') := m w in (r, (d w').2).

Definition modify (f : World → World) : M unit := λ w, (Ret tt, f w).
Definition emit (e : Event) : M unit := modify (record e).
Definition get {A} (f : World → A) : M A := λ w, (Ret (f w), w).

(** The world a call leaves behind. *)
Definition after {A} (m : M A) (w : World) : World := (m w).2.
Definition outcome {A} (m : M A) (w : World) : Result A := (m w).1.

(** ** The toolkit's page operations used by gui.go *)

Definition page_Set (id : string) (v : Value) (g : guistate) : guistate :=
  mk_guistate (<[id := v]> (values g)) (disabled g) (Quants g) (Params g)
              (eventCacheBreaker g) (busy g).
Definition page_Disable (id : string) (b : bool) (g : guistate) : guistate :=
  mk_guistate (values g) (<[id := b]> (disabled g)) (Quants g) (Params g)
              (eventCacheBreaker g) (busy g).
Definition page_Value (id : string) (g : guistate) : Value :=
  default (VString "") (values g !! id).

Definition Set_ (id : string) (v : Value) : M unit := modify (with_GUI (page_Set id v)).
Definition Disable (id : string) (b : bool) : M unit := modify (with_GUI (page_Disable id b)).
Definition StringValue (id : string) : M string := get (λ w, Sprint (page_Value id (GUI w))).
Definition IntValue (id : string) : M Z := get (λ w, toInt (page_Value id (GUI w))).
Definition FloatValue (id : string) : M float64 := get (λ w, toFloat (page_Value id (GUI w))).

(** ** gui.go *)

(** The dynamic value passed to [Add], seen through the two type
    assertions [value.(Param)] and [value.(Slicer)]. *)
Record quantity := mk_quantity {
  as_Param : option Param;
  as_Slicer : option Slicer;
}.

Definition Add (name : string) (value : quantity) (g : guistate) : guistate :=
  let g1 := match as_Param value with
            | Some v => mk_guistate (values g) (disabled g) (Quants g)
                          (<[name := v]> (Params g)) (eventCacheBreaker g) (busy g)
            | None => g
            end in
  match as_Slicer value with
  | Some v => mk_guistate (values g1) (disabled g1) (<[name := v]> (Quants g1))
                (Params g1) (eventCacheBreaker g1) (busy g1)
  | None => g1
  end.

(** [QuantNames]. Go visits the keys of a map in an order it does not
    specify: [order] is the order of this call's [range] loop. *)
Definition QuantNames_in (order : list string) : list string :=
  let names := foldl (λ names k, names ++ [k]) [] order in
  sortNoCase names.

(** An order in which [range g.Quants] may visit the keys: every key of the
    map, once. *)
Definition range_order (g : guistate) (order : list string) : Prop :=
  order ≡ₚ (map_to_list (Quants g)).*1.

Definition QuantNames : M (list string) :=
  get (λ w, QuantNames_in (map_to_list (Quants (GUI w))).*1).

(** [time.Now()]: the next reading of the clock. *)
Definition time_Now : M Z := λ w,
  (Ret (clock (ticks w)),
   mk_World (GUI w) (keepalive w) (S (ticks w)) (sim w) (Inject w) (trace w)).

Definition KeepAlive : M Z := get keepalive.

Definition updateKeepAlive : M unit :=
  t ← time_Now;
  modify (λ w, mk_World (GUI w) t (ticks w) (sim w) (Inject w) (trace w));;
  emit (EvTouch t).

Definition disableControls (busy : bool) : M unit := Disable "cli" busy.

Definition SetBusy (b : bool) : M unit :=
  modify (with_GUI (λ g, mk_guistate (values g) (disabled g) (Quants g) (Params g)
                           (eventCacheBreaker g) b));;
  disableControls b;;
  updateKeepAlive.

Definition Busy : M bool :=
  b ← get (λ w, busy (GUI w));
  emit (EvBusy b);;
  mret b.

Definition Req (n : Z) : M unit := emit (EvReq n).
Definition log_Println (s : string) : M unit := emit (EvPrintln s).
Definition LogInput (s : string) : M unit := emit (EvLogInput s).
Definition LogOutput (s : string) : M unit := emit (EvLogOutput s).

(** [tree.Eval()]: the collaborator acts on the simulation; a panic leaves
    the state it reached. *)
Definition tree_Eval (tree : Tree) : M unit := λ w,
  let '(s, p) := TreeEval tree (sim w) in
  let w' := record (EvEval tree) (with_sim (λ _, s) w) in
  match p with
  | None => (Ret tt, w')
  | Some msg => (Panic msg, w')
  end.

Definition Eval (code : string) : M unit :=
  match Compile code with
  | inl tree => LogInput (Format tree);; tree_Eval tree
  | inr err => LogOutput (code +:+ newline +:+ err)
  end.


(** The body of the closure that OnUpdate injects. *)
Definition snapshot : M unit :=
  s ← get (λ w, Solver (sim w));
  tm ← get (λ w, Time (sim w));
  (* solver *)
  Set_ "nsteps" (VInt (NSteps s));;
  Set_ "time" (VString (Sprintf "%6e" tm));;
  Set_ "dt" (VString (Sprintf "%4e" (Dt_si s)));;
  Set_ "lasterr" (VString (Sprintf "%3e" (LastErr s)));;
  Set_ "maxerr" (VFloat (MaxErr s));;
  Set_ "mindt" (VFloat (MinDt s));;
  Set_ "maxdt" (VFloat (MaxDt s));;
  Set_ "fixdt" (VFloat (FixDt s));;
  (* display *)
  quant ← StringValue "renderQuant";
  comp ← StringValue "renderComp";
  nsteps ← StringValue "nsteps";
  c ← get (λ w, eventCacheBreaker (GUI w));
  let cachebreaker := "?" +:+ nsteps +:+ "_" +:+ Sprint_int c in
  Set_ "display" (VString ("/render/" +:+ quant +:+ "/" +:+ comp +:+ cachebreaker));;
  (* gpu *)
  free ← get (λ w, memfree (sim w));
  Set_ "memfree" (VInt (free `quot` (1024 * 1024))).

Fixpoint floatValues (id : list string) : M (list float64) :=
  match id with
  | [] => mret []
  | i :: id' => v ← FloatValue i; vs ← floatValues id'; mret (v :: vs)
  end.

Fixpoint intValues (id : list string) : M (list Z) :=
  match id with
  | [] => mret []
  | i :: id' => v ← IntValue i; vs ← intValues id'; mret (v :: vs)
  end.

Definition panic {A} (msg : string) : M A := λ w, (Panic msg, w).

(** The call of the collaborator [SetMesh]; a panic leaves the state it
    reached. *)
Definition call_SetMesh (nx ny nz : Z) (cx cy cz : float64) (p : list Z) : M unit := λ w,
  let '(s, pn) := SetMesh nx ny nz cx cy cz p (sim w) in
  let w' := record EvSetMesh (with_sim (λ _, s) w) in
  match pn with
  | None => (Ret tt, w')
  | Some msg => (Panic msg, w')
  end.

(** The body of the closure that the setmesh handler injects. *)
Definition setmesh : M unit :=
  n ← intValues ["nx"; "ny"; "nz"];
  c ← floatValues ["cx"; "cy"; "cz"];
  p ← intValues ["px"; "py"; "pz"];
  match n, c with
  | [nX; nY; nZ], [cX; cY; cZ] =>
      call_SetMesh nX nY nZ (nano cX) (nano cY) (nano cZ) p
  | _, _ => panic "index out of range"
  end.

(** What the simulation thread executes for a command. *)
Definition run (c : Command) : M unit :=
  match c with
  | CmdEval cmd => Eval cmd
  | CmdSetMesh => setmesh
  | CmdSnapshot => snapshot
  end.

(** *** The injection bridge

    [Inject] and [InjectAndWait] are declared in another file of package
    engine; the three definitions below stand for them and for the loop
    that receives from the channel. *)

(** Modelled from the spec: the consumer side of the [Inject] channel. The
    simulation thread takes the pending commands in order; each dequeued
    command runs in a guarded frame that turns a panic into a logged error,
    and the sender that waits for it, if any, is unblocked whether or not
    the command faulted. *)
Definition guarded (c : Command) : M unit := λ w,
  match run c (record (EvRun c) w) with
  | (Ret _, w') => (Ret tt, w')
  | (Panic msg, w') => (Ret tt, record (EvFault c msg) w')
  end.

Definition serve (t : Task) : M unit :=
  guarded (task_cmd t);;
  if task_wait t then emit (EvRelease (task_cmd t)) else mret tt.

Fixpoint consume (q : list Task) : M unit :=
  match q with
  | [] => mret tt
  | t :: q' => serve t;; consume q'
  end.

Definition drain : M unit :=
  q ← get Inject;
  modify (with_Inject (λ _, []));;
  consume q.

(** Modelled from the spec: the send [Inject <- f], the fire-and-forget
    submission. The command is appended to the pending commands and the
    sender goes on; nothing of the command comes back to it. *)
Definition Inject_send (c : Command) : M unit :=
  emit (EvSend c false);;
  modify (with_Inject (λ q, q ++ [mk_Task c false])).

(** Modelled from the spec: [InjectAndWait(f)]. The command is appended to
    the pending commands and the caller resumes once the simulation thread
    has executed it, that is after the commands pending before it and the
    command itself have been served. *)
Definition InjectAndWait (c : Command) : M unit :=
  emit (EvSend c true);;
  modify (with_Inject (λ q, q ++ [mk_Task c true]));;
  drain.

(** *** PrepareServer: the registered handlers *)

Definition MESHWARN : string := "&#x26a0; Click to update mesh (may take some time)".
Definition meshboxes : list string := ["nx"; "ny"; "nz"; "cx"; "cy"; "cz"; "px"; "py"; "pz"].

(** GUI.OnAnyEvent(...) *)
Definition onAnyEvent : M unit :=
  modify (with_GUI (λ g, mk_guistate (values g) (disabled g) (Quants g) (Params g)
                           (wrap_int (eventCacheBreaker g + 1)) (busy g))).

(** GUI.OnEvent("cli", ...) *)
Definition on_cli : M unit :=
  cmd ← StringValue "cli";
  Inject_send (CmdEval cmd);;
  Set_ "cli" (VString "").

Definition warnmesh : M unit :=
  Disable "setmesh" false;;
  Set_ "setmeshwarn" (VString MESHWARN).

(** GUI.OnEvent("setmesh", ...) *)
Definition on_setmesh : M unit :=
  Disable "setmesh" true;;
  InjectAndWait CmdSetMesh;;
  Set_ "setmeshwarn" (VString "mesh up to date").

(** GUI.OnEvent("renderQuant", ...) *)
Definition on_renderQuant : M unit :=
  q ← StringValue "renderQuant";
  d ← get (λ w, default "" (Doc (sim w) !! q));
  Set_ "renderDoc" (VString d).

(** GUI.OnUpdate(...) *)
Definition OnUpdate : M unit :=
  defer (Req (-1))
    (Req 1;;
     updateKeepAlive;;
     b ← Busy;
     if b : bool then (log_Println "gui busy" : M unit)
     else
       disableControls false;;
       InjectAndWait CmdSnapshot).

(** The handler that PrepareServer binds to an element, if any. *)
Definition handler (id : string) : option (M unit) :=
  if decide (id = "cli") then Some on_cli
  else if decide (id ∈ meshboxes) then Some warnmesh
  else if decide (id = "setmesh") then Some on_setmesh
  else if decide (id = "renderQuant") then Some on_renderQuant
  else None.

(** The statements of PrepareServer that act at once. *)
Definition PrepareServer : M unit := Disable "setmesh" true.

(** The toolkit serving one browser event on element [id] with argument
    [arg]: the element takes the argument, its handler runs, then the
    handler registered with OnAnyEvent. *)
Definition serveEvent (id : string) (arg : Value) : M unit :=
  emit (EvEvent id);;
  Set_ id arg;;
  match handler id with Some h => h | None => mret tt end;;
  onAnyEvent.

(** ** Runs *)

(** The state after package initialisation: [GUI] with empty maps and zero
    fields, [keepalive] set from the first clock reading. *)
Definition init_GUI : guistate := mk_guistate ∅ ∅ ∅ ∅ 0 false.
Definition init (s : Sim Rest) : World := mk_World init_GUI (clock 0) 1 s [] [].

(** One move of the system: a call into gui.go from a handler thread, the
    simulation thread serving the channel, or the simulation advancing on
    its own. *)
Inductive Step : World → World → Prop :=
| step_Add w name value : Step w (with_GUI (Add name value) w)
| step_PrepareServer w : Step w (after PrepareServer w)
| step_event w id arg : Step w (after (serveEvent id arg) w)
| step_update w : Step w (after OnUpdate w)
| step_SetBusy w b : Step w (after (SetBusy b) w)
| step_Busy w : Step w (after Busy w)
| step_KeepAlive w : Step w (after KeepAlive w)
| step_drain w : Step w (after drain w)
| step_sim w f : Step w (with_sim f w).

Definition Reachable (w : World) : Prop := ∃ s, rtc Step (init s) w.

(** The commands handed to the bridge so far, in order. *)
Definition sends (tr : list Event) : list Task :=
  omap (λ e, match e with EvSend c b => Some (mk_Task c b) | _ => None end) tr.

(** The commands the simulation thread has started, and the commands whose
    waiting sender has been resumed, in order. *)
Definition runs (tr : list Event) : list Command :=
  omap (λ e, match e with EvRun c => Some c | _ => None end) tr.
Definition releases (tr : list Event) : list Command :=
  omap (λ e, match e with EvRelease c => Some c | _ => None end) tr.

(** The number of browser events served so far. *)
Definition events_served (tr : list Event) : nat :=
  length (omap (λ e, match e with EvEvent id => Some id | _ => None end) tr).

(** ** Observations on states *)

(** The identifier of the rendered image that [snapshot] builds from the
    displayed quantity, the component, the step count as shown and the
    cache breaker. *)
Definition display_id (quant comp nsteps : string) (c : Z) : string :=
  "/render/" +:+ quant +:+ "/" +:+ comp +:+ "?" +:+ nsteps +:+ "_" +:+ Sprint_int c.

(** Every field of the refresh is on the page and agrees with the
    simulation state and the cache breaker of the same world. *)
Definition published (w : World) : Prop :=
  let g := GUI w in
  let s := Solver (sim w) in
  values g !! "nsteps" = Some (VInt (NSteps s)) ∧
  values g !! "time" = Some (VString (Sprintf "%6e" (Time (sim w)))) ∧
  values g !! "dt" = Some (VString (Sprintf "%4e" (Dt_si s))) ∧
  values g !! "lasterr" = Some (VString (Sprintf "%3e" (LastErr s))) ∧
  values g !! "maxerr" = Some (VFloat (MaxErr s)) ∧
  values g !! "mindt" = Some (VFloat (MinDt s)) ∧
  values g !! "maxdt" = Some (VFloat (MaxDt s)) ∧
  values g !! "fixdt" = Some (VFloat (FixDt s)) ∧
  values g !! "display" =
    Some (VString (display_id (Sprint (page_Value "renderQuant" g))
                              (Sprint (page_Value "renderComp" g))
                              (Sprint_int (NSteps s)) (eventCacheBreaker g))) ∧
  values g !! "memfree" = Some (VInt (memfree (sim w) `quot` (1024 * 1024))).

(** [w'] differs from [w] at most in the simulation, the values shown on
    the page and events that are neither submissions nor browser events. *)
Record quiet (w w' : World) : Prop := mk_quiet {
  quiet_keepalive : keepalive w' = keepalive w;
  quiet_ticks : ticks w' = ticks w;
  quiet_Inject : Inject w' = Inject w;
  quiet_busy : busy (GUI w') = busy (GUI w);
  quiet_breaker : eventCacheBreaker (GUI w') = eventCacheBreaker (GUI w);
  quiet_disabled : disabled (GUI w') = disabled (GUI w);
  quiet_Quants : Quants (GUI w') = Quants (GUI w);
  quiet_Params : Params (GUI w') = Params (GUI w);
  quiet_sends : sends (trace w') = sends (trace w);
  quiet_events : events_served (trace w') = events_served (trace w);
  quiet_trace : ∃ tr, trace w' = trace w ++ tr;
}.

(** [w'] differs from [w] at most in what a handler may touch: the page,
    the channel, the simulation and events other than browser events. *)
Record calm (w w' : World) : Prop := mk_calm {
  calm_keepalive : keepalive w' = keepalive w;
  calm_ticks : ticks w' = ticks w;
  calm_busy : busy (GUI w') = busy (GUI w);
  calm_breaker : eventCacheBreaker (GUI w') = eventCacheBreaker (GUI w);
  calm_Quants : Quants (GUI w') = Quants (GUI w);
  calm_events : events_served (trace w') = events_served (trace w);
}.

(** How a move may change the heartbeat: not at all, or to the reading the
    move took from the clock. *)
Definition heartbeat_step (w w' : World) : Prop :=
  (keepalive w' = keepalive w ∧ ticks w' = ticks w) ∨
  (keepalive w' = clock (ticks w) ∧ ticks w' = S (ticks w)).


(** The events a command body records by itself. *)
Definition internal (e : Event) : Prop :=
  match e with
  | EvLogInput _ | EvLogOutput _ | EvEval _ | EvSetMesh => True
  | _ => False
  end.

(** The heartbeat holds one of the clock readings taken so far. *)
Definition heartbeat_read (w : World) : Prop :=
  ∃ k, (k < ticks w)%nat ∧ keepalive w = clock k.

(** The clock never runs backwards. *)
Definition monotone_clock : Prop :=
  ∀ i j, (i ≤ j)%nat → clock i ≤ clock j.

(** The arguments of the calls of [Req] recorded so far, in order. *)
Definition reqs (tr : list Event) : list Z :=
  omap (λ e, match e with EvReq n => Some n | _ => None end) tr.

(** The elements that the refresh closure of OnUpdate sets. *)
Definition snapshot_fields : list string :=
  ["nsteps"; "time"; "dt"; "lasterr"; "maxerr"; "mindt"; "maxdt"; "fixdt";
   "display"; "memfree"].


(** The arguments with which the setmesh closure calls [SetMesh] when the
    page is [g]. *)
Definition mesh_request (g : guistate) (s : Sim Rest) : Sim Rest * option string :=
  SetMesh (toInt (page_Value "nx" g)) (toInt (page_Value "ny" g))
          (toInt (page_Value "nz" g))
          (nano (toFloat (page_Value "cx" g))) (nano (toFloat (page_Value "cy" g)))
          (nano (toFloat (page_Value "cz" g)))
          [toInt (page_Value "px" g); toInt (page_Value "py" g);
           toInt (page_Value "pz" g)] s.

End Gui.

(** ** The locks of gui.go

    The same functions, read for their synchronisation only: which of the
    package's mutexes the calling goroutine holds at each access to a
    variable that several goroutines share. Both mutexes are unexported,
    so only code of package engine can take them; gui.go takes
    [g.mutex] in SetBusy and Busy, and [keepalock] in KeepAlive and
    updateKeepAlive. gui.go imports sync, not sync/atomic. *)

Inductive Mutex := g_mutex | keepalock_mutex.

#[export] Instance Mutex_eq_dec : EqDecision Mutex.
Proof. solve_decision. Defined.

Inductive Var := var_eventCacheBreaker | var_busy | var_keepalive.

Inductive Op :=
| OpRead
| OpWrite
| OpAtomic.   (* an operation of sync/atomic *)

Record Access := mk_Access {
  acc_var : Var;
  acc_op : Op;
  acc_held : list Mutex;   (* the mutexes held at the access *)
}.

(** What a goroutine holds, and its accesses so far. *)
Record Sync := mk_Sync {
  held : list Mutex;
  accesses : list Access;
}.

Definition Lock (m : Mutex) (s : Sync) : Sync :=
  mk_Sync (m :: held s) (accesses s).
Definition Unlock (m : Mutex) (s : Sync) : Sync :=
  mk_Sync (filter (λ m', m' ≠ m) (held s)) (accesses s).
Definition access (v : Var) (o : Op) (s : Sync) : Sync :=
  mk_Sync (held s) (accesses s ++ [mk_Access v o (held s)]).


(** [keepalock.Lock(); defer keepalock.Unlock(); return keepalive] *)
Definition sync_KeepAlive (s : Sync) : Sync :=
  Unlock keepalock_mutex (access var_keepalive OpRead (Lock keepalock_mutex s)).




(** The refresh closure, which reads the field in
    [fmt.Sprint(GUI.eventCacheBreaker)]. *)
Definition sync_snapshot (s : Sync) : Sync :=
  access var_eventCacheBreaker OpRead s.



(** ** A concrete instance, for examples *)

Module example.

#[export] Instance numerics : Numerics := {|
  float64 := Z;
  Sprintf := λ _ x, Sprint_int x;
  Sprint_float := Sprint_int;
  nano := λ x, x;
|}.

(** A script is either the text [step], which advances the solver by one
    step, the text [crash], which compiles and panics when evaluated, or a
    syntax error. The clock advances by one unit per reading. *)
#[export] Instance collaborators : Collaborators := {|
  Slicer := unit;
  Param := unit;
  Rest := unit;
  Tree := string;
  Compile := λ code, if decide (code = "step") then inl code
                     else if decide (code = "crash") then inl code
                     else inr "syntax error";
  Format := λ t, t;
  TreeEval := λ t s,
    if decide (t = "crash") then (s, Some "crash")
    else (mk_Sim (mk_solver (NSteps (Solver s) + 1) (Dt_si (Solver s))
                    (LastErr (Solver s)) (MaxErr (Solver s)) (MinDt (Solver s))
                    (MaxDt (Solver s)) (FixDt (Solver s)))
                 (Time s) (Doc s) (memfree s) (rest s), None);
  SetMesh := λ _ _ _ _ _ _ _ s, (s, None);
  toInt := λ v, match v with VInt n => n | _ => 0 end;
  toFloat := λ v, match v with VFloat x => x | _ => 0 end;
  clock := Z.of_nat;
|}.

Definition sim0 : Sim Rest := mk_Sim (mk_solver 0 0 0 0 0 0 0) 0 ∅ (3 * 1024 * 1024) tt.
Definition w0 : World := init sim0.

(** The registry after [Add("m", ...)] and [Add("B_ext", ...)]. *)
Definition w_registry : World :=
  with_GUI (Add "m" (mk_quantity None (Some tt)))
    (with_GUI (Add "B_ext" (mk_quantity (Some tt) (Some tt))) w0).

End example.

End engine.

(** * Properties *)

Import engine.

Section EngineFacts.
Context `{Collaborators}.

(** ** Calls in sequence *)

Lemma after_bind {A B} (m : M A) (k : A → M B) w :
  after (m ≫= k) w =
  match outcome m w with
  | Ret a => after (k a) (after m w)
  | Panic _ => after m w
  end.
Proof. unfold after, outcome, mbind, M_bind. by destruct (m w) as [[a|msg] w']. Qed.

Lemma outcome_bind {A B} (m : M A) (k : A → M B) w :
  outcome (m ≫= k) w =
  match outcome m w with
  | Ret a => outcome (k a) (after m w)
  | Panic msg => Panic msg
  end.
Proof. unfold after, outcome, mbind, M_bind. by destruct (m w) as [[a|msg] w']. Qed.

(** ** What the bridge leaves untouched *)

Lemma sends_record tr e :
  sends (tr ++ [e]) =
  sends tr ++ match e with EvSend c b => [mk_Task c b] | _ => [] end.
Proof. unfold sends. rewrite omap_app. by destruct e. Qed.

Lemma runs_record tr e :
  runs (tr ++ [e]) = runs tr ++ match e with EvRun c => [c] | _ => [] end.
Proof. unfold runs. rewrite omap_app. by destruct e. Qed.

Lemma releases_record tr e :
  releases (tr ++ [e]) = releases tr ++ match e with EvRelease c => [c] | _ => [] end.
Proof. unfold releases. rewrite omap_app. by destruct e. Qed.

Lemma events_served_record tr e :
  events_served (tr ++ [e]) =
  (events_served tr + match e with EvEvent _ => 1 | _ => 0 end)%nat.
Proof. unfold events_served. rewrite omap_app, length_app. by destruct e. Qed.

Lemma quiet_refl w : quiet w w.
Proof. constructor; try done. exists []. by rewrite app_nil_r. Qed.

Lemma quiet_trans w1 w2 w3 : quiet w1 w2 → quiet w2 w3 → quiet w1 w3.
Proof.
  intros [? ? ? ? ? ? ? ? ? ? [tr1 Htr1]] [? ? ? ? ? ? ? ? ? ? [tr2 Htr2]].
  constructor; try congruence.
  exists (tr1 ++ tr2). by rewrite Htr2, Htr1, app_assoc.
Qed.

Lemma quiet_record e w :
  match e with EvSend _ _ | EvEvent _ => False | _ => True end →
  quiet w (record e w).
Proof.
  intros He. constructor; try done; cbn [record trace].
  - rewrite sends_record. destruct e; try done; by rewrite app_nil_r.
  - rewrite events_served_record. destruct e; try done; lia.
  - by eexists.
Qed.

Lemma quiet_with_sim f w : quiet w (with_sim f w).
Proof. constructor; try done. exists []. by rewrite app_nil_r. Qed.

Lemma tree_Eval_after tree w :
  after (tree_Eval tree) w =
  record (EvEval tree) (with_sim (λ _, (TreeEval tree (sim w)).1) w).
Proof. unfold after, tree_Eval. by destruct (TreeEval tree (sim w)) as [s [msg|]]. Qed.

Lemma tree_Eval_outcome tree w :
  outcome (tree_Eval tree) w =
  match (TreeEval tree (sim w)).2 with Some msg => Panic msg | None => Ret tt end.
Proof. unfold outcome, tree_Eval. by destruct (TreeEval tree (sim w)) as [s [msg|]]. Qed.

Lemma Eval_quiet code w : quiet w (after (Eval code) w).
Proof.
  unfold Eval. destruct (Compile code) as [tree|err].
  - rewrite after_bind. cbn [outcome LogInput emit modify fst].
    rewrite tree_Eval_after.
    eapply quiet_trans; [by apply (quiet_record (EvLogInput (Format tree)))|].
    eapply quiet_trans; [apply quiet_with_sim | by apply quiet_record].
  - by apply (quiet_record (EvLogOutput _)).
Qed.

Lemma snapshot_quiet w : quiet w (after snapshot w).
Proof. constructor; try done. exists []. by rewrite app_nil_r. Qed.

Lemma snapshot_returns w : outcome snapshot w = Ret tt.
Proof. done. Qed.

Lemma call_SetMesh_after nx ny nz cx cy cz p w :
  after (call_SetMesh nx ny nz cx cy cz p) w =
  record EvSetMesh (with_sim (λ _, (SetMesh nx ny nz cx cy cz p (sim w)).1) w).
Proof.
  unfold after, call_SetMesh.
  by destruct (SetMesh nx ny nz cx cy cz p (sim w)) as [s [msg|]].
Qed.

Lemma call_SetMesh_quiet nx ny nz cx cy cz p w :
  quiet w (after (call_SetMesh nx ny nz cx cy cz p) w).
Proof.
  rewrite call_SetMesh_after.
  eapply quiet_trans; [apply quiet_with_sim | by apply quiet_record].
Qed.

Lemma setmesh_after w :
  ∃ s, after setmesh w = record EvSetMesh (with_sim (λ _, s) w).
Proof. eexists. apply call_SetMesh_after. Qed.

Lemma setmesh_quiet w : quiet w (after setmesh w).
Proof. apply call_SetMesh_quiet. Qed.

Lemma run_quiet c w : quiet w (after (run c) w).
Proof.
  destruct c; [apply Eval_quiet | apply setmesh_quiet | apply snapshot_quiet].
Qed.

Lemma guarded_returns c w : outcome (guarded c) w = Ret tt.
Proof. unfold outcome, guarded. by destruct (run c _) as [[[]|msg] w']. Qed.

Lemma guarded_after c w :
  after (guarded c) w =
  match outcome (run c) (record (EvRun c) w) with
  | Ret _ => after (run c) (record (EvRun c) w)
  | Panic msg => record (EvFault c msg) (after (run c) (record (EvRun c) w))
  end.
Proof. unfold after, outcome, guarded. by destruct (run c _) as [[[]|msg] w']. Qed.

Lemma guarded_quiet c w : quiet w (after (guarded c) w).
Proof.
  rewrite guarded_after.
  eapply quiet_trans; [by apply (quiet_record (EvRun c))|].
  destruct (outcome _ _); [apply run_quiet|].
  eapply quiet_trans; [apply run_quiet | by apply quiet_record].
Qed.

Lemma serve_returns t w : outcome (serve t) w = Ret tt.
Proof.
  unfold serve. rewrite outcome_bind, guarded_returns. by destruct (task_wait t).
Qed.

Lemma serve_after t w :
  after (serve t) w =
  if task_wait t then record (EvRelease (task_cmd t)) (after (guarded (task_cmd t)) w)
  else after (guarded (task_cmd t)) w.
Proof.
  unfold serve. rewrite after_bind, guarded_returns. by destruct (task_wait t).
Qed.

Lemma serve_quiet t w : quiet w (after (serve t) w).
Proof.
  rewrite serve_after.
  destruct (task_wait t); [|apply guarded_quiet].
  eapply quiet_trans; [apply guarded_quiet | by apply quiet_record].
Qed.

Lemma consume_returns q w : outcome (consume q) w = Ret tt.
Proof.
  revert w. induction q as [|t q IH]; intros w; [done|].
  cbn [consume]. by rewrite outcome_bind, serve_returns.
Qed.

Lemma consume_cons t q w :
  after (consume (t :: q)) w = after (consume q) (after (serve t) w).
Proof. cbn [consume]. by rewrite after_bind, serve_returns. Qed.

Lemma consume_quiet q w : quiet w (after (consume q) w).
Proof.
  revert w. induction q as [|t q IH]; intros w; [apply quiet_refl|].
  rewrite consume_cons.
  eapply quiet_trans; [apply serve_quiet | apply IH].
Qed.

Lemma consume_app q1 q2 w :
  after (consume (q1 ++ q2)) w = after (consume q2) (after (consume q1) w).
Proof.
  revert w. induction q1 as [|t q1 IH]; intros w; [done|].
  by rewrite <-app_comm_cons, !consume_cons, IH.
Qed.

Lemma drain_returns w : outcome drain w = Ret tt.
Proof. unfold drain, outcome. cbn. apply consume_returns. Qed.

Lemma drain_after w :
  after drain w = after (consume (Inject w)) (with_Inject (λ _, []) w).
Proof. done. Qed.

Lemma drain_empties w : Inject (after drain w) = [].
Proof. rewrite drain_after. by rewrite (quiet_Inject _ _ (consume_quiet _ _)). Qed.

Lemma InjectAndWait_returns c w : outcome (InjectAndWait c) w = Ret tt.
Proof. unfold InjectAndWait. rewrite !outcome_bind. cbn. apply consume_returns. Qed.

Lemma InjectAndWait_after c w :
  after (InjectAndWait c) w =
  record (EvRelease c)
    (after (guarded c)
       (after (consume (Inject w))
          (with_Inject (λ _, []) (record (EvSend c true) w)))).
Proof.
  unfold InjectAndWait. rewrite !after_bind. cbn [outcome emit modify fst].
  rewrite drain_after. cbn [after emit modify snd Inject with_Inject record].
  rewrite consume_app, consume_cons, serve_after. done.
Qed.

(** ** What the consumer records *)

Lemma run_trace c w :
  ∃ tr, trace (after (run c) w) = trace w ++ tr ∧ Forall internal tr.
Proof.
  destruct c as [code| |]; cbn [run].
  - unfold Eval. destruct (Compile code) as [tree|err].
    + rewrite after_bind. cbn [outcome LogInput emit modify fst].
      rewrite tree_Eval_after. cbn.
      exists [EvLogInput (Format tree); EvEval tree].
      rewrite <-app_assoc. split; [done|]. by repeat constructor.
    + exists [EvLogOutput (code +:+ newline +:+ err)]. split; [done|].
      by repeat constructor.
  - exists [EvSetMesh]. split; [|by repeat constructor].
    destruct (setmesh_after w) as [s ->]. done.
  - exists []. split; [|constructor]. by rewrite app_nil_r.
Qed.

Lemma runs_internal tr tr' : Forall internal tr' → runs (tr ++ tr') = runs tr.
Proof.
  intros Hi. unfold runs. rewrite omap_app.
  induction Hi as [|e tr' He _ IH]; [by rewrite app_nil_r|].
  destruct e; try done; exact IH.
Qed.

Lemma releases_internal tr tr' : Forall internal tr' → releases (tr ++ tr') = releases tr.
Proof.
  intros Hi. unfold releases. rewrite omap_app.
  induction Hi as [|e tr' He _ IH]; [by rewrite app_nil_r|].
  destruct e; try done; exact IH.
Qed.

Lemma guarded_runs c w :
  runs (trace (after (guarded c) w)) = runs (trace w) ++ [c] ∧
  releases (trace (after (guarded c) w)) = releases (trace w).
Proof.
  rewrite guarded_after.
  destruct (run_trace c (record (EvRun c) w)) as (tr & Htr & Hi).
  destruct (outcome _ _); cbn [record trace];
    rewrite ?runs_record, ?releases_record, Htr, ?runs_internal, ?releases_internal by done;
    cbn [record trace]; by rewrite ?runs_record, ?releases_record, ?app_nil_r.
Qed.

Lemma serve_runs t w :
  runs (trace (after (serve t) w)) = runs (trace w) ++ [task_cmd t] ∧
  releases (trace (after (serve t) w)) =
    releases (trace w) ++ (if task_wait t then [task_cmd t] else []).
Proof.
  rewrite serve_after. destruct (guarded_runs (task_cmd t) w) as [Hr Hl].
  destruct (task_wait t); cbn [record trace];
    by rewrite ?runs_record, ?releases_record, ?Hr, ?Hl, ?app_nil_r.
Qed.

Lemma consume_runs q w :
  runs (trace (after (consume q) w)) = runs (trace w) ++ (task_cmd <$> q) ∧
  releases (trace (after (consume q) w)) =
    releases (trace w) ++ (task_cmd <$> filter (λ t, task_wait t = true) q).
Proof.
  revert w. induction q as [|t q IH]; intros w.
  - cbn. by rewrite !app_nil_r.
  - rewrite consume_cons. destruct (IH (after (serve t) w)) as [-> ->].
    destruct (serve_runs t w) as [-> ->].
    rewrite <-!app_assoc. split; [done|]. f_equal.
    rewrite filter_cons. by destruct (task_wait t).
Qed.

(** ** The busy flag *)

(** C5. After [SetBusy b], from any state and for both values of [b], the
    call has returned, the busy flag is [b] and [Busy()] answers [b], the
    element cli is disabled exactly when [b] is true while no other
    element's attribute changes, and the heartbeat holds a clock reading
    taken during the call. *)
Theorem SetBusy_flag_controls_heartbeat (b : bool) (w : World) :
  let w' := after (SetBusy b) w in
  outcome (SetBusy b) w = Ret tt ∧
  busy (GUI w') = b ∧
  outcome Busy w' = Ret b ∧
  disabled (GUI w') !! "cli" = Some b ∧
  (∀ id, id ≠ "cli" → disabled (GUI w') !! id = disabled (GUI w) !! id) ∧
  keepalive w' = clock (ticks w) ∧
  ticks w' = S (ticks w) ∧
  trace w' = trace w ++ [EvTouch (clock (ticks w))].
Proof.
  cbn. repeat split.
  - apply lookup_insert_eq.
  - intros id Hid. by apply lookup_insert_ne.
Qed.

(** ** The refresh *)

Lemma page_Value_Set_eq id v g : page_Value id (page_Set id v g) = v.
Proof. unfold page_Value, page_Set. cbn. by rewrite lookup_insert_eq. Qed.

Lemma page_Value_Set_ne id id' v g :
  id ≠ id' → page_Value id' (page_Set id v g) = page_Value id' g.
Proof. intros. unfold page_Value, page_Set. cbn. by rewrite lookup_insert_ne. Qed.

Ltac step_calls :=
  unfold after, outcome, OnUpdate, defer, snapshot, SetBusy, Busy, updateKeepAlive,
    disableControls, Req, log_Println, LogInput, LogOutput, Set_, Disable,
    StringValue, IntValue, FloatValue, KeepAlive, time_Now,
    emit, get, modify, mbind, mret, M_bind, M_ret;
  cbn [fst snd GUI keepalive ticks sim Inject trace values disabled Quants Params
       eventCacheBreaker busy with_GUI with_sim with_Inject record page_Set
       page_Disable].

Lemma snapshot_published w : published (after snapshot w).
Proof.
  unfold published. step_calls.
  rewrite !page_Value_Set_ne by done. rewrite page_Value_Set_eq.
  repeat split; try by simplify_map_eq.
  rewrite lookup_insert_ne, lookup_insert_eq by done.
  by repeat (rewrite page_Value_Set_ne by done).
Qed.

Lemma published_record e w : published w → published (record e w).
Proof. done. Qed.


Lemma defer_after {A} (d : M unit) (m : M A) w :
  after (defer d m) w = after d (after m w).
Proof. unfold after, defer. by destruct (m w). Qed.

Lemma defer_outcome {A} (d : M unit) (m : M A) w :
  outcome (defer d m) w = outcome m w.
Proof. unfold outcome, defer. by destruct (m w). Qed.

Lemma emit_returns e w : outcome (emit e) w = Ret tt.
Proof. done. Qed.
Lemma Req_returns n w : outcome (Req n) w = Ret tt.
Proof. done. Qed.
Lemma updateKeepAlive_returns w : outcome updateKeepAlive w = Ret tt.
Proof. done. Qed.
Lemma Busy_outcome w : outcome Busy w = Ret (busy (GUI w)).
Proof. done. Qed.
Lemma disableControls_returns b w : outcome (disableControls b) w = Ret tt.
Proof. done. Qed.
Lemma Set_returns id v w : outcome (Set_ id v) w = Ret tt.
Proof. done. Qed.
Lemma Disable_returns id b w : outcome (Disable id b) w = Ret tt.
Proof. done. Qed.

Ltac sequence :=
  repeat first
    [ rewrite after_bind | rewrite outcome_bind
    | rewrite defer_after | rewrite defer_outcome
    | rewrite Req_returns | rewrite updateKeepAlive_returns | rewrite Busy_outcome
    | rewrite disableControls_returns | rewrite Set_returns | rewrite Disable_returns
    | rewrite emit_returns
    | progress cbv beta iota ].

(** The world in which OnUpdate, having found the flag clear, submits. *)
Lemma OnUpdate_idle w :
  busy (GUI w) = false →
  after OnUpdate w =
  record (EvReq (-1))
    (after (InjectAndWait CmdSnapshot)
       (after (disableControls false)
          (after Busy (after updateKeepAlive (after (Req 1) w))))) ∧
  outcome OnUpdate w = Ret tt.
Proof.
  intros Hb. unfold OnUpdate. sequence.
  change (busy (GUI (after updateKeepAlive (after (Req 1) w)))) with (busy (GUI w)).
  rewrite Hb. sequence. by rewrite InjectAndWait_returns.
Qed.

Lemma OnUpdate_busy w :
  busy (GUI w) = true →
  after OnUpdate w =
  record (EvReq (-1))
    (after (log_Println "gui busy")
       (after Busy (after updateKeepAlive (after (Req 1) w)))) ∧
  outcome OnUpdate w = Ret tt.
Proof.
  intros Hb. unfold OnUpdate. sequence.
  change (busy (GUI (after updateKeepAlive (after (Req 1) w)))) with (busy (GUI w)).
  by rewrite Hb.
Qed.


(** What the calls before the test of the flag leave behind. *)
Lemma OnUpdate_prelude w :
  let w0 := after Busy (after updateKeepAlive (after (Req 1) w)) in
  GUI w0 = GUI w ∧ keepalive w0 = clock (ticks w) ∧ ticks w0 = S (ticks w) ∧
  sim w0 = sim w ∧ Inject w0 = Inject w ∧
  trace w0 = trace w ++ [EvReq 1; EvTouch (clock (ticks w)); EvBusy (busy (GUI w))].
Proof. step_calls. by rewrite <-!app_assoc. Qed.

(** What a waiting submission leaves behind. *)
Lemma InjectAndWait_facts c w :
  let w' := after (InjectAndWait c) w in
  keepalive w' = keepalive w ∧ ticks w' = ticks w ∧
  disabled (GUI w') = disabled (GUI w) ∧
  eventCacheBreaker (GUI w') = eventCacheBreaker (GUI w) ∧
  busy (GUI w') = busy (GUI w) ∧
  Quants (GUI w') = Quants (GUI w) ∧
  events_served (trace w') = events_served (trace w) ∧
  Inject w' = [] ∧
  sends (trace w') = sends (trace w) ++ [mk_Task c true] ∧
  runs (trace w') = runs (trace w) ++ (task_cmd <$> Inject w) ++ [c] ∧
  ∃ tr, trace w' = trace w ++ [EvSend c true] ++ tr ++ [EvRelease c].
Proof.
  cbn zeta. rewrite InjectAndWait_after.
  pose proof (consume_quiet (Inject w)
                (with_Inject (λ _, []) (record (EvSend c true) w))) as Hq.
  destruct (consume_runs (Inject w)
              (with_Inject (λ _, []) (record (EvSend c true) w))) as [Hr _].
  revert Hq Hr. generalize (after (consume (Inject w))
                   (with_Inject (λ _, []) (record (EvSend c true) w))).
  intros w3 Hq Hr.
  pose proof (guarded_quiet c w3) as Hg.
  destruct (guarded_runs c w3) as [Hgr _].
  revert Hg Hgr. generalize (after (guarded c) w3). intros w4 Hg Hgr.
  destruct Hq as [q1 q2 q3 q4 q5 q6 q7 q8 q9 q10 [tr3 q11]].
  destruct Hg as [g1 g2 g3 g4 g5 g6 g7 g8 g9 g10 [tr4 g11]].
  cbn [record with_Inject keepalive ticks GUI Inject trace] in *.
  rewrite sends_record, runs_record, events_served_record, !app_nil_r, Nat.add_0_r.
  rewrite g1, g2, g3, g4, g5, g6, g7, g9, g10, Hgr, q1, q2, q4, q5, q6, q7, q9, q10, Hr.
  rewrite sends_record, runs_record, events_served_record, app_nil_r, Nat.add_0_r.
  repeat split; try done.
  - by rewrite <-app_assoc.
  - exists (tr3 ++ tr4). rewrite g11, q11, <-!app_assoc. reflexivity.
Qed.

Lemma InjectAndWait_snapshot_published w :
  published (after (InjectAndWait CmdSnapshot) w).
Proof.
  rewrite InjectAndWait_after.
  generalize (after (consume (Inject w))
                (with_Inject (λ _, []) (record (EvSend CmdSnapshot true) w))).
  intros w3. rewrite guarded_after. cbn [run]. rewrite snapshot_returns.
  apply published_record, snapshot_published.
Qed.

(** C1. Every call of the OnUpdate handler returns. When the busy flag is
    set, the call hands no command to the bridge, changes neither the page
    values, the simulation nor the channel, and reports through
    log.Println("gui busy"). When the flag is clear, the call enables the
    element cli and hands exactly one command to the bridge, the refresh
    closure, waits for it, and on return every field of the snapshot is on
    the page. *)
Theorem OnUpdate_busy_gate (w : World) :
  let w' := after OnUpdate w in
  outcome OnUpdate w = Ret tt ∧
  if busy (GUI w) then
    sends (trace w') = sends (trace w) ∧
    trace w' = trace w ++ [EvReq 1; EvTouch (clock (ticks w)); EvBusy true;
                           EvPrintln "gui busy"; EvReq (-1)] ∧
    values (GUI w') = values (GUI w) ∧
    sim w' = sim w ∧
    Inject w' = Inject w
  else
    disabled (GUI w') !! "cli" = Some false ∧
    sends (trace w') = sends (trace w) ++ [mk_Task CmdSnapshot true] ∧
    runs (trace w') = runs (trace w) ++ (task_cmd <$> Inject w) ++ [CmdSnapshot] ∧
    (∃ tr, trace w' = tr ++ [EvRelease CmdSnapshot; EvReq (-1)]) ∧
    published w'.
Proof.
  cbn zeta. destruct (OnUpdate_prelude w) as (HG & Hk & Ht & Hs & Hi & Htr).
  destruct (busy (GUI w)) eqn:Hb.
  - destruct (OnUpdate_busy w Hb) as [-> ->]. split; [done|].
    revert HG Hk Ht Hs Hi Htr.
    generalize (after Busy (after updateKeepAlive (after (Req 1) w))).
    intros w0 HG Hk Ht Hs Hi Htr.
    cbn [after log_Println emit modify snd record trace GUI sim Inject].
    rewrite Htr, HG, Hs, Hi, <-!app_assoc. cbn [app].
    split; [|done].
    unfold sends. rewrite omap_app. cbn. by rewrite app_nil_r.
  - destruct (OnUpdate_idle w Hb) as [-> ->]. split; [done|].
    revert HG Hk Ht Hs Hi Htr.
    generalize (after Busy (after updateKeepAlive (after (Req 1) w))).
    intros w0 HG Hk Ht Hs Hi Htr.
    pose proof (InjectAndWait_snapshot_published (after (disableControls false) w0)) as Hp.
    destruct (InjectAndWait_facts CmdSnapshot (after (disableControls false) w0))
      as (_ & _ & Hd & _ & _ & _ & _ & _ & Hsd & Hr & [tr Ht']).
    revert Hp Hd Hsd Hr Ht'.
    generalize (after (InjectAndWait CmdSnapshot) (after (disableControls false) w0)).
    intros w5 Hp Hd Hsd Hr Ht'.
    cbn [after disableControls Disable modify snd with_GUI GUI page_Disable disabled
         trace Inject record] in *.
    rewrite sends_record, runs_record, !app_nil_r, Hd, Hsd, Hr, Htr, Hi.
    split; [apply lookup_insert_eq|].
    split; [unfold sends; rewrite omap_app; cbn; by rewrite app_nil_r|].
    split; [unfold runs; rewrite omap_app; cbn; by rewrite app_nil_r|].
    split; [|by apply published_record].
    rewrite Ht'. exists (trace w0 ++ [EvSend CmdSnapshot true] ++ tr).
    by rewrite <-!app_assoc.
Qed.

(** C9. Every call of the OnUpdate handler, busy or not, first takes a
    reading of the clock into the heartbeat and only then asks for the busy
    flag: the recorded events of the call start with Req(1), the heartbeat
    update and the answer of Busy(), in this order; on return the heartbeat
    holds that reading and one more reading has been consumed. With the
    flag set, no command is handed to the bridge and the page values are
    left as they were. *)
Theorem OnUpdate_heartbeat_first (w : World) :
  let w' := after OnUpdate w in
  keepalive w' = clock (ticks w) ∧
  ticks w' = S (ticks w) ∧
  (∃ tr, trace w' = trace w ++ [EvReq 1; EvTouch (clock (ticks w));
                               EvBusy (busy (GUI w))] ++ tr) ∧
  (if busy (GUI w)
   then sends (trace w') = sends (trace w) ∧ values (GUI w') = values (GUI w)
   else True).
Proof.
  cbn zeta. destruct (OnUpdate_prelude w) as (HG & Hk & Ht & Hs & Hi & Htr).
  destruct (busy (GUI w)) eqn:Hb.
  - destruct (OnUpdate_busy w Hb) as [-> _].
    revert HG Hk Ht Hs Hi Htr.
    generalize (after Busy (after updateKeepAlive (after (Req 1) w))).
    intros w0 HG Hk Ht Hs Hi Htr.
    cbn [after log_Println emit modify snd record trace GUI keepalive ticks].
    rewrite Htr, HG, Hk, Ht, <-!app_assoc. cbn [app].
    split; [done|]. split; [done|]. split.
    + by exists [EvPrintln "gui busy"; EvReq (-1)].
    + split; [|done]. unfold sends. rewrite omap_app. cbn. by rewrite app_nil_r.
  - destruct (OnUpdate_idle w Hb) as [-> _].
    revert HG Hk Ht Hs Hi Htr.
    generalize (after Busy (after updateKeepAlive (after (Req 1) w))).
    intros w0 HG Hk Ht Hs Hi Htr.
    destruct (InjectAndWait_facts CmdSnapshot (after (disableControls false) w0))
      as (Hk' & Ht' & _ & _ & _ & _ & _ & _ & _ & _ & [tr Htr']).
    revert Hk' Ht' Htr'.
    generalize (after (InjectAndWait CmdSnapshot) (after (disableControls false) w0)).
    intros w5 Hk' Ht' Htr'.
    cbn [after disableControls Disable modify snd with_GUI GUI keepalive ticks
         trace record] in *.
    rewrite Hk', Ht', Htr', Hk, Ht, Htr.
    split; [done|]. split; [done|]. split; [|done].
    exists ([EvSend CmdSnapshot true] ++ tr ++ [EvRelease CmdSnapshot; EvReq (-1)]).
    by rewrite <-!app_assoc.
Qed.

Lemma call_SetMesh_outcome nx ny nz cx cy cz p w :
  outcome (call_SetMesh nx ny nz cx cy cz p) w =
  match (SetMesh nx ny nz cx cy cz p (sim w)).2 with
  | Some msg => Panic msg
  | None => Ret tt
  end.
Proof.
  unfold outcome, call_SetMesh.
  by destruct (SetMesh nx ny nz cx cy cz p (sim w)) as [s [msg|]].
Qed.

(** Whether a command panics does not depend on the recorded events. *)
Lemma run_outcome_record c e w : outcome (run c) (record e w) = outcome (run c) w.
Proof.
  destruct c as [code| |]; cbn [run].
  - unfold Eval. destruct (Compile code) as [tree|err]; [|done].
    rewrite !outcome_bind. cbn [outcome LogInput emit modify fst].
    by rewrite !tree_Eval_outcome.
  - change (outcome setmesh (record e w)) with
      (outcome (call_SetMesh (toInt (page_Value "nx" (GUI w))) (toInt (page_Value "ny" (GUI w)))
         (toInt (page_Value "nz" (GUI w))) (nano (toFloat (page_Value "cx" (GUI w))))
         (nano (toFloat (page_Value "cy" (GUI w)))) (nano (toFloat (page_Value "cz" (GUI w))))
         [toInt (page_Value "px" (GUI w)); toInt (page_Value "py" (GUI w));
          toInt (page_Value "pz" (GUI w))]) (record e w)).
    change (outcome setmesh w) with
      (outcome (call_SetMesh (toInt (page_Value "nx" (GUI w))) (toInt (page_Value "ny" (GUI w)))
         (toInt (page_Value "nz" (GUI w))) (nano (toFloat (page_Value "cx" (GUI w))))
         (nano (toFloat (page_Value "cy" (GUI w)))) (nano (toFloat (page_Value "cz" (GUI w))))
         [toInt (page_Value "px" (GUI w)); toInt (page_Value "py" (GUI w));
          toInt (page_Value "pz" (GUI w))]) w).
    by rewrite !call_SetMesh_outcome.
  - done.
Qed.

(** ** Eval and the console *)

(** C2. [Eval code] first asks the compiler. If the text compiles, the
    formatted unit goes to LogInput and then the unit is evaluated: these
    are the only two events, in this order, and the simulation is the one
    the evaluation leaves. If it does not compile, the only event is one
    LogOutput of the text, a line feed and the error's description, nothing
    is evaluated and the simulation is unchanged. In both cases the page
    and the channel are untouched. *)
Theorem Eval_logs_then_evaluates (code : string) (w : World) :
  let w' := after (Eval code) w in
  match Compile code with
  | inl tree =>
      trace w' = trace w ++ [EvLogInput (Format tree); EvEval tree] ∧
      sim w' = (TreeEval tree (sim w)).1 ∧
      outcome (Eval code) w =
        match (TreeEval tree (sim w)).2 with
        | Some msg => Panic msg
        | None => Ret tt
        end
  | inr err =>
      trace w' = trace w ++ [EvLogOutput (code +:+ newline +:+ err)] ∧
      sim w' = sim w ∧
      outcome (Eval code) w = Ret tt
  end ∧
  GUI w' = GUI w ∧ Inject w' = Inject w ∧ keepalive w' = keepalive w.
Proof.
  cbn zeta. unfold Eval. destruct (Compile code) as [tree|err].
  - rewrite after_bind, outcome_bind. cbn [outcome LogInput emit modify fst].
    rewrite tree_Eval_after, tree_Eval_outcome. cbn. by rewrite <-app_assoc.
  - done.
Qed.

Lemma on_cli_after w :
  after on_cli w =
  with_GUI (page_Set "cli" (VString ""))
    (with_Inject (λ q, q ++ [mk_Task (CmdEval (Sprint (page_Value "cli" (GUI w)))) false])
       (record (EvSend (CmdEval (Sprint (page_Value "cli" (GUI w)))) false) w)).
Proof. done. Qed.

Lemma on_cli_returns w : outcome on_cli w = Ret tt.
Proof. done. Qed.

(** C3. The consumer of the channel as the spec states it: draining serves
    every pending command exactly once and in order, always returns and
    leaves the channel empty, whatever the commands do; the sender waiting
    for a command is resumed once per waited command, also when that
    command panicked. A command that panics, such as the closure the cli
    handler submits around [Eval] when the evaluation of the compiled text
    panics, is stopped by the guarded frame, which returns normally after
    recording the fault; [InjectAndWait] always returns and its last event
    is the release of its caller. *)
Theorem bridge_contains_faults (w : World) :
  let w' := after drain w in
  outcome drain w = Ret tt ∧
  Inject w' = [] ∧
  runs (trace w') = runs (trace w) ++ (task_cmd <$> Inject w) ∧
  releases (trace w') =
    releases (trace w) ++ (task_cmd <$> filter (λ t, task_wait t = true) (Inject w)) ∧
  (∀ c w0 msg, outcome (run c) w0 = Panic msg →
     outcome (guarded c) w0 = Ret tt ∧
     ∃ tr, trace (after (guarded c) w0) = trace w0 ++ [EvRun c] ++ tr ++ [EvFault c msg]) ∧
  (∀ cmd tree msg w0,
     Compile cmd = inl tree → (TreeEval tree (sim w0)).2 = Some msg →
     outcome (run (CmdEval cmd)) w0 = Panic msg) ∧
  (∀ w0, Inject (after on_cli w0) =
         Inject w0 ++ [mk_Task (CmdEval (Sprint (page_Value "cli" (GUI w0)))) false]) ∧
  (∀ c w0, outcome (InjectAndWait c) w0 = Ret tt ∧
           ∃ tr, trace (after (InjectAndWait c) w0) = tr ++ [EvRelease c]).
Proof.
  cbn zeta. split; [apply drain_returns|]. split; [apply drain_empties|].
  rewrite drain_after.
  destruct (consume_runs (Inject w) (with_Inject (λ _, []) w)) as [-> ->].
  split; [done|]. split; [done|]. split; [|split; [|split]].
  - intros c w0 msg Hp. split; [apply guarded_returns|].
    rewrite guarded_after.
    rewrite run_outcome_record, Hp.
    destruct (run_trace c (record (EvRun c) w0)) as (tr & Htr & _).
    exists tr. cbn [record trace] in *. by rewrite Htr, <-!app_assoc.
  - intros cmd tree msg w0 Hc He. cbn [run]. unfold Eval. rewrite Hc.
    rewrite outcome_bind. cbn [outcome LogInput emit modify fst].
    rewrite tree_Eval_outcome. cbn. by rewrite He.
  - intros w0. by rewrite on_cli_after.
  - intros c w0. split; [apply InjectAndWait_returns|].
    rewrite InjectAndWait_after. by eexists.
Qed.

(** ** Moves of the system *)



Lemma quiet_calm w w' : quiet w w' → calm w w'.
Proof. intros []. by constructor. Qed.

Lemma calm_refl w : calm w w.
Proof. by constructor. Qed.

Lemma calm_trans w1 w2 w3 : calm w1 w2 → calm w2 w3 → calm w1 w3.
Proof. intros [] []. constructor; congruence. Qed.


Lemma on_cli_calm w : calm w (after on_cli w).
Proof.
  rewrite on_cli_after. constructor; try done. cbn [with_GUI with_Inject record trace].
  rewrite events_served_record. lia.
Qed.

Lemma warnmesh_calm w : calm w (after warnmesh w).
Proof. by constructor. Qed.

Lemma on_renderQuant_calm w : calm w (after on_renderQuant w).
Proof. by constructor. Qed.

Lemma on_setmesh_after w :
  after on_setmesh w =
  after (Set_ "setmeshwarn" (VString "mesh up to date"))
    (after (InjectAndWait CmdSetMesh) (after (Disable "setmesh" true) w)) ∧
  outcome on_setmesh w = Ret tt.
Proof.
  unfold on_setmesh. rewrite !after_bind, !outcome_bind, !Disable_returns.
  cbv beta iota. by rewrite !InjectAndWait_returns.
Qed.

Lemma on_setmesh_calm w : calm w (after on_setmesh w).
Proof.
  destruct (on_setmesh_after w) as [-> _].
  destruct (InjectAndWait_facts CmdSetMesh (after (Disable "setmesh" true) w))
    as (Hk & Ht & _ & Hc & Hb & Hq & He & _).
  revert Hk Ht Hc Hb Hq He.
  generalize (after (InjectAndWait CmdSetMesh) (after (Disable "setmesh" true) w)).
  intros w1 Hk Ht Hc Hb Hq He. by constructor.
Qed.

Lemma handler_calm id h w :
  handler id = Some h → outcome h w = Ret tt ∧ calm w (after h w).
Proof.
  unfold handler. repeat case_decide; intros [= <-].
  - split; [done | apply on_cli_calm].
  - split; [done | apply warnmesh_calm].
  - split; [apply on_setmesh_after | apply on_setmesh_calm].
  - split; [done | apply on_renderQuant_calm].
Qed.

Lemma serveEvent_facts id arg w :
  let w' := after (serveEvent id arg) w in
  outcome (serveEvent id arg) w = Ret tt ∧
  keepalive w' = keepalive w ∧ ticks w' = ticks w ∧
  busy (GUI w') = busy (GUI w) ∧
  eventCacheBreaker (GUI w') = wrap_int (eventCacheBreaker (GUI w) + 1) ∧
  events_served (trace w') = S (events_served (trace w)).
Proof.
  cbn zeta. unfold serveEvent.
  rewrite !after_bind, !outcome_bind, !emit_returns. cbv beta iota.
  rewrite !Set_returns. cbv beta iota.
  assert (∀ w1, outcome (match handler id with Some h => h | None => mret () end) w1 = Ret tt
           ∧ calm w1 (after (match handler id with Some h => h | None => mret () end) w1))
    as Hh.
  { intros w1. destruct (handler id) as [h|] eqn:Hid.
    - by apply (handler_calm id).
    - split; [done | apply calm_refl]. }
  destruct (Hh (after (Set_ id arg) (after (emit (EvEvent id)) w))) as [-> Hc].
  revert Hc. generalize (after (match handler id with Some h => h | None => mret () end)
                    (after (Set_ id arg) (after (emit (EvEvent id)) w))).
  intros w1 [c1 c2 c3 c4 c5 c6].
  cbn [after Set_ emit modify snd with_GUI record trace GUI keepalive ticks page_Set
       busy eventCacheBreaker onAnyEvent] in *.
  rewrite events_served_record in c6. repeat split; try done.
  - by rewrite c4.
  - rewrite c6. lia.
Qed.

Lemma OnUpdate_frame w :
  let w' := after OnUpdate w in
  keepalive w' = clock (ticks w) ∧ ticks w' = S (ticks w) ∧
  eventCacheBreaker (GUI w') = eventCacheBreaker (GUI w) ∧
  events_served (trace w') = events_served (trace w).
Proof.
  cbn zeta. destruct (OnUpdate_prelude w) as (HG & Hk & Ht & Hs & Hi & Htr).
  destruct (busy (GUI w)) eqn:Hb.
  - destruct (OnUpdate_busy w Hb) as [-> _].
    revert HG Hk Ht Hs Hi Htr.
    generalize (after Busy (after updateKeepAlive (after (Req 1) w))).
    intros w0 HG Hk Ht Hs Hi Htr.
    cbn [after log_Println emit modify snd record trace GUI keepalive ticks].
    rewrite Htr, HG, Hk, Ht. repeat split.
    unfold events_served. rewrite !omap_app. cbn. by rewrite !app_nil_r.
  - destruct (OnUpdate_idle w Hb) as [-> _].
    revert HG Hk Ht Hs Hi Htr.
    generalize (after Busy (after updateKeepAlive (after (Req 1) w))).
    intros w0 HG Hk Ht Hs Hi Htr.
    destruct (InjectAndWait_facts CmdSnapshot (after (disableControls false) w0))
      as (Hk' & Ht' & _ & Hc & _ & _ & He & _).
    revert Hk' Ht' Hc He.
    generalize (after (InjectAndWait CmdSnapshot) (after (disableControls false) w0)).
    intros w5 Hk' Ht' Hc He.
    cbn [after disableControls Disable modify snd with_GUI GUI keepalive ticks
         trace record page_Disable eventCacheBreaker] in *.
    rewrite events_served_record, Nat.add_0_r, Hk', Ht', Hc, He, Hk, Ht, Htr, HG.
    repeat split.
    unfold events_served. rewrite !omap_app. cbn. by rewrite !app_nil_r.
Qed.

Lemma Step_heartbeat w w' : Step w w' → heartbeat_step w w'.
Proof.
  intros [w0 name value|w0|w0 id arg|w0|w0 b|w0|w0|w0|w0 f].
  - by left.
  - by left.
  - left. by destruct (serveEvent_facts id arg w0) as (_ & ? & ? & _).
  - right. by destruct (OnUpdate_frame w0) as (? & ? & _).
  - by right.
  - by left.
  - by left.
  - left. rewrite drain_after.
    pose proof (consume_quiet (Inject w0) (with_Inject (λ _, []) w0)) as [q1 q2 _ _ _ _ _ _ _ _ _].
    by rewrite q1, q2.
  - by left.
Qed.


Lemma Reachable_step w w' : Reachable w → Step w w' → Reachable w'.
Proof. intros [s Hs] Hst. exists s. by eapply rtc_r. Qed.

Lemma Reachable_heartbeat w : Reachable w → heartbeat_read w.
Proof.
  intros [s Hs]. revert w Hs. apply rtc_ind_r.
  - exists 0%nat. split; [cbn; lia | done].
  - intros w1 w2 Hrtc Hst IH. destruct IH as (k & Hk & Hka).
    unfold heartbeat_read.
    destruct (Step_heartbeat _ _ Hst) as [[-> ->]|[-> ->]].
    + by exists k.
    + exists (ticks w1). split; [lia | done].
Qed.


(** ** The heartbeat *)

(** C6. With a clock that never runs backwards, in every reachable state:
    [updateKeepAlive] followed by [KeepAlive] returns the reading just
    taken, which is not before the heartbeat seen before the update nor
    before a reading of the clock taken just before it; the heartbeat
    never decreases along any sequence of moves of the system, nor across
    repeated updates. *)
Theorem heartbeat_monotone (w : World) :
  monotone_clock → Reachable w →
  outcome KeepAlive (after updateKeepAlive w) = Ret (clock (ticks w)) ∧
  keepalive w ≤ keepalive (after updateKeepAlive w) ∧
  (∀ t, outcome time_Now w = Ret t →
        t ≤ keepalive (after updateKeepAlive (after time_Now w))) ∧
  (∀ w', rtc Step w w' → keepalive w ≤ keepalive w') ∧
  keepalive (after updateKeepAlive w) ≤
    keepalive (after updateKeepAlive (after updateKeepAlive w)).
Proof.
  intros Hmono Hw.
  destruct (Reachable_heartbeat w Hw) as (k & Hk & Hka).
  split; [done|]. split; [|split; [|split]].
  - change (keepalive w ≤ clock (ticks w)). rewrite Hka. apply Hmono. lia.
  - intros t [= <-]. change (clock (ticks w) ≤ clock (S (ticks w))). apply Hmono. lia.
  - intros w' Hrtc.
    cut (Reachable w' ∧ keepalive w ≤ keepalive w'); [by intros [_ ?]|].
    revert w' Hrtc. apply rtc_ind_r; [done|].
    intros w1 w2 _ Hst [Hr1 Hle]. split; [by eapply Reachable_step|].
    destruct (Reachable_heartbeat w1 Hr1) as (k1 & Hk1 & Hka1).
    destruct (Step_heartbeat _ _ Hst) as [[-> _]|[-> _]]; [done|].
    etrans; [exact Hle|]. rewrite Hka1. apply Hmono. lia.
  - change (clock (ticks w) ≤ clock (S (ticks w))). apply Hmono. lia.
Qed.

(** ** The cache breaker *)


Lemma snapshot_display w :
  values (GUI (after snapshot w)) !! "display" =
  Some (VString (display_id (Sprint (page_Value "renderQuant" (GUI w)))
                            (Sprint (page_Value "renderComp" (GUI w)))
                            (Sprint_int (NSteps (Solver (sim w))))
                            (eventCacheBreaker (GUI w)))).
Proof.
  step_calls. rewrite !page_Value_Set_ne by done. rewrite page_Value_Set_eq.
  rewrite lookup_insert_ne, lookup_insert_eq by done.
  by repeat (rewrite page_Value_Set_ne by done).
Qed.



(** ** The registry of quantities *)

Lemma String_leb_trans a b c :
  String.leb a b = true → String.leb b c = true → String.leb a c = true.
Proof.
  unfold String.leb. revert b c.
  induction a as [|x a IH]; intros [|y b] [|z c]; cbn; try done.
  unfold Ascii.compare.
  destruct (N.compare_spec (N_of_ascii x) (N_of_ascii y)) as [E1|E1|E1]; try done;
    destruct (N.compare_spec (N_of_ascii y) (N_of_ascii z)) as [E2|E2|E2]; try done;
    destruct (N.compare_spec (N_of_ascii x) (N_of_ascii z)) as [E3|E3|E3];
    try done; try lia.
  apply IH.
Qed.

#[local] Instance no_case_le_total : Total no_case_le.
Proof. intros a b. unfold no_case_le. apply String.leb_total. Qed.

#[local] Instance no_case_le_trans : Transitive no_case_le.
Proof. intros a b c. unfold no_case_le. apply String_leb_trans. Qed.

Lemma foldl_snoc {A} (acc l : list A) :
  foldl (λ names k, names ++ [k]) acc l = acc ++ l.
Proof.
  revert acc. induction l as [|x l IH]; intros acc; cbn.
  - by rewrite app_nil_r.
  - by rewrite IH, <-app_assoc.
Qed.

Lemma QuantNames_in_perm order : QuantNames_in order ≡ₚ order.
Proof.
  unfold QuantNames_in, sortNoCase. rewrite merge_sort_Permutation.
  by rewrite foldl_snoc.
Qed.

(** C8. Whatever order the loop over the map takes, [QuantNames] returns
    the registered names and only them, each once, in an order in which no
    name comes after a later one when both are lower-cased; the call
    changes nothing. *)
Theorem QuantNames_sorted_registry (w : World) (order : list string) :
  range_order (GUI w) order →
  let names := QuantNames_in order in
  (∀ k, k ∈ names ↔ is_Some (Quants (GUI w) !! k)) ∧
  NoDup names ∧
  length names = size (Quants (GUI w)) ∧
  StronglySorted no_case_le names ∧
  (∃ order0, range_order (GUI w) order0 ∧
             outcome QuantNames w = Ret (QuantNames_in order0)) ∧
  after QuantNames w = w.
Proof.
  unfold range_order. intros Hord. cbn zeta.
  pose proof (QuantNames_in_perm order) as Hperm.
  split; [|split; [|split; [|split; [|split]]]].
  - intros k. rewrite Hperm, Hord, list_elem_of_fmap. split.
    + intros [[k' v] [-> Hin]]. apply elem_of_map_to_list in Hin. by exists v.
    + intros [v Hv]. exists (k, v). split; [done|]. by apply elem_of_map_to_list.
  - rewrite Hperm, Hord. apply NoDup_fst_map_to_list.
  - by rewrite Hperm, Hord, length_fmap, length_map_to_list.
  - apply StronglySorted_merge_sort; apply _.
  - by exists (map_to_list (Quants (GUI w))).*1.
  - done.
Qed.

End EngineFacts.

(** * The httpfs client *)

Import httpfs.

Section HttpfsFacts.
Context `{Net}.

Lemma do_returns method URL req :
  NewRequest method URL = inl req →
  ∃ resp, do method URL = Ret (Some resp) ∧
    match (client_Do req).2 with
    | Some e => resp = mk_Response StatusTeapot {[X_ERROR := [e]]} ""
    | None => (client_Do req).1 = Some resp
    end.
Proof.
  intros Hreq. unfold do. rewrite Hreq. cbn.
  destruct (client_Do req) as [resp [e|]] eqn:Hdo; cbn.
  - eauto.
  - destruct (client_Do_resp req resp Hdo) as [r ->]. eauto.
Qed.

Lemma readUInt_negative body :
  readUInt body < 0 ↔ Fscan body = None ∨ ∃ n, Fscan body = Some n ∧ n < 0.
Proof.
  unfold readUInt. destruct (Fscan body) as [n|]; split.
  - intros Hn. right. eauto.
  - intros [|[n' [[= <-] Hn]]]; done.
  - by left.
  - lia.
Qed.

(** What [do] and [OpenFile] guarantee once the request is there. When the
    request can be constructed, [do]
    returns a response that is not nil: the fabricated one, with status
    418, the error's text under X_ERROR and an empty body, when the round
    trip fails, and the server's otherwise. (When the request cannot be
    constructed, [panicOn] makes [do] panic.) Whenever [OpenFile] returns,
    it does not return a nil File together with a nil error, and it returns
    a nil File with an error when the response's status is not 200 or when
    the body does not scan as an integer that is at least 0, which is when
    [readUInt] is negative. *)
Theorem do_response_OpenFile_error (method URL : string) (req : Request)
    (f : Client) (name : string) (flag perm : Z) :
  NewRequest method URL = inl req →
  (∃ resp, do method URL = Ret (Some resp) ∧
     match (client_Do req).2 with
     | Some e => resp = mk_Response StatusTeapot {[X_ERROR := [e]]} ""
     | None => (client_Do req).1 = Some resp
     end) ∧
  (∀ file err, OpenFile f name flag perm = Ret (file, err) →
     ¬ (file = None ∧ err = None)) ∧
  (∀ resp,
     do "OPEN" (URL_String (mk_URL "http" (serverAddr f) name
        ("flag=" +:+ Sprint_int flag +:+ "&perm=" +:+ Sprint_int (perm `mod` 2 ^ 32))))
       = Ret (Some resp) →
     (StatusCode resp ≠ StatusOK ∨ Fscan (Body resp) = None ∨
      ∃ n, Fscan (Body resp) = Some n ∧ n < 0) →
     ∃ e, OpenFile f name flag perm = Ret (None, Some e)).
Proof.
  intros Hreq. split; [by apply do_returns|]. split.
  - intros file err. unfold OpenFile. cbn zeta.
    destruct (do "OPEN" _) as [[resp|]|msg]; [|done..].
    repeat case_decide; intros [= <- <-]; by intros [? ?].
  - intros resp Hdo Hbad. unfold OpenFile. cbn zeta. rewrite Hdo.
    destruct (decide (StatusCode resp ≠ StatusOK)) as [|Hok]; [eauto|].
    destruct Hbad as [?|Hscan]; [done|].
    apply readUInt_negative in Hscan. rewrite decide_True by done. eauto.
Qed.

End HttpfsFacts.

(** C10. [do] does not return a response for every method and URL: on the
    example network the URL [":"] cannot be made into a request, and
    [panicOn] makes [do] panic where its comment promises the fabricated
    response with status Teapot. *)
Lemma do_panics_on_bad_URL :
  @do example_Net "OPEN" ":" = Panic "parse :: missing protocol scheme" ∧
  ¬ (∀ (N : Net) (method URL : string), ∃ resp, @do N method URL = Ret (Some resp)).
Proof.
  split; [reflexivity|].
  intros Hall. destruct (Hall example_Net "OPEN" ":") as [resp Hresp].
  discriminate Hresp.
Qed.

Lemma do_response_OpenFile_error_witness :
  @NewRequest example_Net "OPEN" "http://host/ok" = inl ("OPEN", "http://host/ok") ∧
  (∃ resp, @do example_Net "OPEN" "http://host/ok" = Ret (Some resp) ∧
     match (@client_Do example_Net ("OPEN", "http://host/ok")).2 with
     | Some e => resp = mk_Response StatusTeapot {[@X_ERROR example_Net := [e]]} ""
     | None => (@client_Do example_Net ("OPEN", "http://host/ok")).1 = Some resp
     end).
Proof.
  split; [reflexivity|].
  apply (@do_response_OpenFile_error example_Net "OPEN" "http://host/ok"
           ("OPEN", "http://host/ok") (mk_Client "host") "/ok" 0 0).
  reflexivity.
Defined.

(** * Instances of the theorems on the example collaborators *)

Section Examples.
Import engine.example.

Lemma example_clock_monotone : monotone_clock.
Proof. intros i j Hij. cbn. lia. Qed.

Lemma example_w0_reachable : Reachable w0.
Proof. exists sim0. apply rtc_refl. Qed.

Example QuantNames_example :
  outcome QuantNames engine.example.w_registry = Ret ["B_ext"; "m"].
Proof. vm_compute. reflexivity. Qed.

(** The console text [crash] compiles and panics when evaluated: served
    through the bridge, the panic is recorded and the next command, a
    refresh whose sender waits, still runs and its sender is released. *)
Example crash_is_contained :
  let w1 := after (serveEvent "cli" (VString "crash")) w0 in
  let w2 := after (InjectAndWait CmdSnapshot) w1 in
  outcome (run (CmdEval "crash")) w1 = Panic "crash" ∧
  outcome (InjectAndWait CmdSnapshot) w1 = Ret tt ∧
  trace w2 = [EvEvent "cli"; EvSend (CmdEval "crash") false; EvSend CmdSnapshot true;
              EvRun (CmdEval "crash"); EvLogInput "crash"; EvEval "crash";
              EvFault (CmdEval "crash") "crash";
              EvRun CmdSnapshot; EvRelease CmdSnapshot] ∧
  Inject w2 = [].
Proof.
  cbv zeta. split; [|split; [|split]]; reflexivity.
Qed.

End Examples.

Lemma heartbeat_monotone_witness :
  @monotone_clock _ engine.example.collaborators ∧
  @Reachable _ engine.example.collaborators engine.example.w0 ∧
  @keepalive _ engine.example.collaborators engine.example.w0 ≤
    @keepalive _ engine.example.collaborators
      (after (@updateKeepAlive _ engine.example.collaborators) engine.example.w0).
Proof.
  split; [exact example_clock_monotone|]. split; [exact example_w0_reachable|].
  apply (@heartbeat_monotone _ engine.example.collaborators engine.example.w0
           example_clock_monotone example_w0_reachable).
Defined.


Lemma QuantNames_sorted_registry_witness :
  range_order (GUI engine.example.w_registry) ["m"; "B_ext"] ∧
  StronglySorted no_case_le (QuantNames_in ["m"; "B_ext"]).
Proof.
  assert (Hord : range_order (GUI engine.example.w_registry) ["m"; "B_ext"]).
  { unfold range_order. vm_compute. first [reflexivity | apply perm_swap]. }
  split; [exact Hord|].
  exact (proj1 (proj2 (proj2 (proj2
    (@QuantNames_sorted_registry _ engine.example.collaborators engine.example.w_registry
       ["m"; "B_ext"] Hord))))).
Defined.

(** * Further properties of gui.go *)

Section RegistryFacts.
Context `{Collaborators}.




Lemma QuantNames_in_registered (Q : gmap string Slicer) k :
  k ∈ QuantNames_in (map_to_list Q).*1 ↔ is_Some (Q !! k).
Proof.
  rewrite QuantNames_in_perm, list_elem_of_fmap. split.
  - intros [[k' v] [-> Hin]]. apply elem_of_map_to_list in Hin. by exists v.
  - intros [v Hv]. exists (k, v). split; [done|]. by apply elem_of_map_to_list.
Qed.



(** [intValues] and [floatValues] return one number per identifier, in the
    order of the identifiers: the element's value as the toolkit converts
    it; an empty list of identifiers gives an empty list. The calls read
    only: they leave the state as it was. *)
Theorem intValues_floatValues_read (ids : list string) (w : World) :
  outcome (intValues ids) w = Ret ((λ id, toInt (page_Value id (GUI w))) <$> ids) ∧
  outcome (floatValues ids) w = Ret ((λ id, toFloat (page_Value id (GUI w))) <$> ids) ∧
  after (intValues ids) w = w ∧
  after (floatValues ids) w = w.
Proof.
  induction ids as [|id ids (IHi & IHf & IHia & IHfa)]; [done|].
  cbn [intValues floatValues fmap list_fmap].
  rewrite !outcome_bind, !after_bind.
  change (outcome (IntValue id) w) with (Ret (toInt (page_Value id (GUI w)))).
  change (outcome (FloatValue id) w) with (Ret (toFloat (page_Value id (GUI w)))).
  change (after (IntValue id) w) with w. change (after (FloatValue id) w) with w.
  cbv beta iota. rewrite !outcome_bind, !after_bind, IHi, IHf, IHia, IHfa. done.
Qed.

End RegistryFacts.

Section RefreshFacts.
Context `{Collaborators}.

Ltac run_calls :=
  unfold after, outcome, snapshot, Set_, Disable, StringValue, get, modify, emit,
    mbind, mret, M_bind, M_ret;
  cbn [fst snd GUI keepalive ticks sim Inject trace values disabled Quants Params
       eventCacheBreaker busy with_GUI with_sim with_Inject record page_Set
       page_Disable].

(** The values on the page after the refresh closure has run. *)
Lemma snapshot_values w :
  let s := Solver (sim w) in
  let g := GUI w in
  values (GUI (after snapshot w)) =
  <["memfree" := VInt (memfree (sim w) `quot` (1024 * 1024))]>
  (<["display" := VString (display_id (Sprint (page_Value "renderQuant" g))
                                      (Sprint (page_Value "renderComp" g))
                                      (Sprint_int (NSteps s)) (eventCacheBreaker g))]>
  (<["fixdt" := VFloat (FixDt s)]> (<["maxdt" := VFloat (MaxDt s)]>
  (<["mindt" := VFloat (MinDt s)]> (<["maxerr" := VFloat (MaxErr s)]>
  (<["lasterr" := VString (Sprintf "%3e" (LastErr s))]>
  (<["dt" := VString (Sprintf "%4e" (Dt_si s))]>
  (<["time" := VString (Sprintf "%6e" (Time (sim w)))]>
  (<["nsteps" := VInt (NSteps s)]> (values g)))))))))).
Proof.
  cbn zeta. run_calls.
  rewrite !page_Value_Set_ne by done. rewrite page_Value_Set_eq.
  by repeat (rewrite page_Value_Set_ne by done).
Qed.

Lemma snapshot_rest w :
  let w' := after snapshot w in
  disabled (GUI w') = disabled (GUI w) ∧ Quants (GUI w') = Quants (GUI w) ∧
  Params (GUI w') = Params (GUI w) ∧
  eventCacheBreaker (GUI w') = eventCacheBreaker (GUI w) ∧
  busy (GUI w') = busy (GUI w) ∧ keepalive w' = keepalive w ∧ ticks w' = ticks w ∧
  sim w' = sim w ∧ Inject w' = Inject w ∧ trace w' = trace w.
Proof. done. Qed.

Lemma World_eq (w1 w2 : World) :
  values (GUI w1) = values (GUI w2) → disabled (GUI w1) = disabled (GUI w2) →
  Quants (GUI w1) = Quants (GUI w2) → Params (GUI w1) = Params (GUI w2) →
  eventCacheBreaker (GUI w1) = eventCacheBreaker (GUI w2) →
  busy (GUI w1) = busy (GUI w2) → keepalive w1 = keepalive w2 → ticks w1 = ticks w2 →
  sim w1 = sim w2 → Inject w1 = Inject w2 → trace w1 = trace w2 → w1 = w2.
Proof.
  destruct w1 as [[] ? ? ? ? ?], w2 as [[] ? ? ? ? ?]. cbn. by intros; subst.
Qed.

(** The refresh closure sets its ten elements and nothing else: every other
    element keeps its value, and the attributes, the registry, the flags,
    the simulation, the channel and the heartbeat are as before. Running
    it a second time on an unchanged simulation changes nothing at all. *)
Theorem snapshot_idempotent (w : World) :
  let w' := after snapshot w in
  after snapshot w' = w' ∧
  (∀ id, id ∈ snapshot_fields → is_Some (values (GUI w') !! id)) ∧
  (∀ id, id ∉ snapshot_fields → values (GUI w') !! id = values (GUI w) !! id) ∧
  disabled (GUI w') = disabled (GUI w) ∧ Quants (GUI w') = Quants (GUI w) ∧
  Params (GUI w') = Params (GUI w) ∧
  eventCacheBreaker (GUI w') = eventCacheBreaker (GUI w) ∧
  busy (GUI w') = busy (GUI w) ∧ keepalive w' = keepalive w ∧
  sim w' = sim w ∧ Inject w' = Inject w ∧ trace w' = trace w.
Proof.
  cbn zeta. pose proof (snapshot_values w) as Hv. cbn zeta in Hv.
  pose proof (snapshot_values (after snapshot w)) as Hv'. cbn zeta in Hv'.
  destruct (snapshot_rest w) as (Hd & HQ & HP & Hc & Hb & Hk & Ht & Hs & Hi & Htr).
  destruct (snapshot_rest (after snapshot w))
    as (Hd' & HQ' & HP' & Hc' & Hb' & Hk' & Ht' & Hs' & Hi' & Htr').
  assert (page_Value "renderQuant" (GUI (after snapshot w)) =
          page_Value "renderQuant" (GUI w)) as Hq.
  { unfold page_Value. rewrite Hv. by rewrite !lookup_insert_ne by done. }
  assert (page_Value "renderComp" (GUI (after snapshot w)) =
          page_Value "renderComp" (GUI w)) as Hcomp.
  { unfold page_Value. rewrite Hv. by rewrite !lookup_insert_ne by done. }
  rewrite Hq, Hcomp, Hc, Hs in Hv'.
  revert Hv Hv' Hd HQ HP Hc Hb Hk Ht Hs Hi Htr Hd' HQ' HP' Hc' Hb' Hk' Ht' Hs' Hi' Htr'.
  generalize (after snapshot (after snapshot w)). generalize (after snapshot w).
  intros w1 w2 Hv Hv' Hd HQ HP Hc Hb Hk Ht Hs Hi Htr Hd' HQ' HP' Hc' Hb' Hk' Ht' Hs' Hi' Htr'.
  split; [|split; [|split]]; [| | |done].
  - apply World_eq; try done. rewrite Hv', Hv.
    apply map_eq. intros k.
    repeat match goal with
           | |- context [<[?i := _]> _ !! k] =>
               destruct (decide (i = k)) as [<-|];
               [by rewrite !lookup_insert_eq
               |rewrite !(lookup_insert_ne _ i k) by done]
           end.
    done.
  - intros id Hid. rewrite Hv. unfold snapshot_fields in Hid.
    repeat (apply elem_of_cons in Hid as [->|Hid];
            [rewrite ?lookup_insert_ne by done; by rewrite lookup_insert_eq|]).
    by apply elem_of_nil in Hid.
  - intros id Hid. rewrite Hv. unfold snapshot_fields in Hid.
    repeat (apply not_elem_of_cons in Hid as [? Hid]).
    by rewrite !lookup_insert_ne by done.
Qed.

End RefreshFacts.

Section HandlerFacts.
Context `{Collaborators}.

Lemma handler_returns id w :
  outcome (match handler id with Some h => h | None => mret tt end) w = Ret tt.
Proof.
  destruct (handler id) as [h|] eqn:Hid; [by apply (handler_calm id) | done].
Qed.

(** Serving an event: the element takes the argument, the handler runs,
    then the cache breaker is incremented. *)
Lemma serveEvent_after id arg w :
  after (serveEvent id arg) w =
  after onAnyEvent
    (after (match handler id with Some h => h | None => mret tt end)
       (with_GUI (page_Set id arg) (record (EvEvent id) w))).
Proof.
  unfold serveEvent.
  repeat first [ rewrite after_bind | rewrite outcome_bind | rewrite emit_returns
               | rewrite Set_returns | rewrite handler_returns
               | progress cbv beta iota ].
  done.
Qed.

Lemma reqs_record tr e :
  reqs (tr ++ [e]) = reqs tr ++ match e with EvReq n => [n] | _ => [] end.
Proof. unfold reqs. rewrite omap_app. by destruct e. Qed.

Lemma reqs_internal tr tr' : Forall internal tr' → reqs (tr ++ tr') = reqs tr.
Proof.
  intros Hi. unfold reqs. rewrite omap_app.
  induction Hi as [|e tr' He _ IH]; [by rewrite app_nil_r|].
  destruct e; try done; exact IH.
Qed.

Lemma guarded_reqs c w : reqs (trace (after (guarded c) w)) = reqs (trace w).
Proof.
  rewrite guarded_after.
  destruct (run_trace c (record (EvRun c) w)) as (tr & Htr & Hi).
  destruct (outcome _ _); cbn [record trace];
    rewrite ?reqs_record, Htr, reqs_internal by done;
    cbn [record trace]; by rewrite reqs_record, ?app_nil_r.
Qed.

Lemma serve_reqs t w : reqs (trace (after (serve t) w)) = reqs (trace w).
Proof.
  rewrite serve_after.
  destruct (task_wait t); cbn [record trace];
    by rewrite ?reqs_record, guarded_reqs, ?app_nil_r.
Qed.

Lemma consume_reqs q w : reqs (trace (after (consume q) w)) = reqs (trace w).
Proof.
  revert w. induction q as [|t q IH]; intros w; [done|].
  by rewrite consume_cons, IH, serve_reqs.
Qed.

Lemma InjectAndWait_reqs c w :
  reqs (trace (after (InjectAndWait c) w)) = reqs (trace w).
Proof.
  rewrite InjectAndWait_after. cbn [record trace].
  rewrite reqs_record, guarded_reqs, consume_reqs. cbn [with_Inject record trace].
  by rewrite reqs_record, !app_nil_r.
Qed.

(** The request count around a refresh. Every call of the OnUpdate handler
    records [Req(1)] and [Req(-1)], once each and in this order, and no
    other call of [Req]: the deferred [Req(-1)] also runs on the early
    return of the busy branch, and the commands the simulation thread runs
    in between call [Req] never. *)
Theorem OnUpdate_Req_balanced (w : World) :
  let w' := after OnUpdate w in
  reqs (trace w') = reqs (trace w) ++ [1; -1] ∧
  (∃ tr, trace w' = trace w ++ [EvReq 1] ++ tr ++ [EvReq (-1)]) ∧
  foldr Z.add 0 (reqs (trace w')) = foldr Z.add 0 (reqs (trace w)).
Proof.
  cbn zeta.
  assert (reqs (trace (after OnUpdate w)) = reqs (trace w) ++ [1; -1] ∧
          ∃ tr, trace (after OnUpdate w) = trace w ++ [EvReq 1] ++ tr ++ [EvReq (-1)])
    as [Hr Htr'].
  { destruct (OnUpdate_prelude w) as (HG & Hk & Ht & Hs & Hi & Htr).
    destruct (busy (GUI w)) eqn:Hb.
    - destruct (OnUpdate_busy w Hb) as [-> _].
      revert HG Hk Ht Hs Hi Htr.
      generalize (after Busy (after updateKeepAlive (after (Req 1) w))).
      intros w0 HG Hk Ht Hs Hi Htr.
      cbn [after log_Println emit modify snd record trace].
      rewrite Htr. split.
      + unfold reqs. rewrite !omap_app. cbn. by rewrite <-!app_assoc.
      + exists [EvTouch (clock (ticks w)); EvBusy true; EvPrintln "gui busy"].
        by rewrite <-!app_assoc.
    - destruct (OnUpdate_idle w Hb) as [-> _].
      revert HG Hk Ht Hs Hi Htr.
      generalize (after Busy (after updateKeepAlive (after (Req 1) w))).
      intros w0 HG Hk Ht Hs Hi Htr.
      pose proof (InjectAndWait_reqs CmdSnapshot (after (disableControls false) w0)) as Hq.
      destruct (InjectAndWait_facts CmdSnapshot (after (disableControls false) w0))
        as (_ & _ & _ & _ & _ & _ & _ & _ & _ & _ & [tr Ht']).
      revert Hq Ht'.
      generalize (after (InjectAndWait CmdSnapshot) (after (disableControls false) w0)).
      intros w5 Hq Ht'.
      cbn [after disableControls Disable modify snd with_GUI trace record] in *.
      rewrite reqs_record, Hq, Htr. split.
      + unfold reqs. rewrite !omap_app. cbn. by rewrite <-!app_assoc.
      + exists ([EvTouch (clock (ticks w)); EvBusy false] ++
                [EvSend CmdSnapshot true] ++ tr ++ [EvRelease CmdSnapshot]).
        rewrite Ht', Htr, <-!app_assoc. reflexivity. }
  split; [done|]. split; [done|].
  rewrite Hr, foldr_app. cbn. done.
Qed.

End HandlerFacts.

Section EventFacts.
Context `{Collaborators}.

Lemma cli_event_after arg w :
  after (serveEvent "cli" arg) w =
  mk_World
    (mk_guistate (<["cli" := VString ""]> (<["cli" := arg]> (values (GUI w))))
       (disabled (GUI w)) (Quants (GUI w)) (Params (GUI w))
       (wrap_int (eventCacheBreaker (GUI w) + 1)) (busy (GUI w)))
    (keepalive w) (ticks w) (sim w)
    (Inject w ++ [mk_Task (CmdEval (Sprint arg)) false])
    ((trace w ++ [EvEvent "cli"]) ++ [EvSend (CmdEval (Sprint arg)) false]).
Proof.
  rewrite serveEvent_after. change (handler "cli") with (Some on_cli).
  cbv beta iota. rewrite on_cli_after.
  cbn [GUI with_GUI record]. by rewrite page_Value_Set_eq.
Qed.

Lemma consume_nil w : after (consume []) w = w.
Proof. done. Qed.

(** An event on the console. The handler hands exactly one command to the
    bridge, without waiting for it: the evaluation of the text the element
    held when the event arrived, not of the cleared box; it empties the
    box and evaluates nothing itself, whether or not the GUI is busy. When
    the simulation thread next drains the channel, the commands pending
    before it run first and then this one; run with nothing pending before
    it, it logs and evaluates the compiled text, or logs the compiler's
    error and leaves the simulation alone. *)
Theorem cli_event_submits_text (arg : Value) (w : World) :
  let cmd := CmdEval (Sprint arg) in
  let w' := after (serveEvent "cli" arg) w in
  let w'' := after drain w' in
  Inject w' = Inject w ++ [mk_Task cmd false] ∧
  sends (trace w') = sends (trace w) ++ [mk_Task cmd false] ∧
  values (GUI w') !! "cli" = Some (VString "") ∧
  sim w' = sim w ∧
  runs (trace w') = runs (trace w) ∧
  Inject w'' = [] ∧
  runs (trace w'') = runs (trace w) ++ (task_cmd <$> Inject w) ++ [cmd] ∧
  (∀ tree, Inject w = [] → Compile (Sprint arg) = inl tree →
     sim w'' = (TreeEval tree (sim w)).1 ∧
     ∃ tr, trace w'' =
           trace w' ++ [EvRun cmd; EvLogInput (Format tree); EvEval tree] ++ tr) ∧
  (∀ err, Inject w = [] → Compile (Sprint arg) = inr err →
     sim w'' = sim w ∧
     trace w'' = trace w' ++ [EvRun cmd; EvLogOutput (Sprint arg +:+ newline +:+ err)]).
Proof.
  cbn zeta. rewrite cli_event_after.
  set (w1 := mk_World _ _ _ _ _ _).
  split; [done|]. split.
  { cbn [w1 trace]. rewrite !sends_record. by rewrite app_nil_r. }
  split; [apply lookup_insert_eq|]. split; [done|]. split.
  { cbn [w1 trace]. rewrite !runs_record. by rewrite !app_nil_r. }
  split; [apply drain_empties|]. split.
  { rewrite drain_after.
    destruct (consume_runs (Inject w1) (with_Inject (λ _, []) w1)) as [-> _].
    cbn [w1 with_Inject trace Inject]. rewrite !runs_record, !app_nil_r.
    by rewrite fmap_app. }
  assert (Inject w = [] →
          after drain w1 =
          after (guarded (CmdEval (Sprint arg))) (with_Inject (λ _, []) w1)) as Hd.
  { intros Hi. rewrite drain_after. cbn [w1 Inject]. rewrite Hi. cbn [app].
    by rewrite consume_cons, consume_nil, serve_after. }
  split.
  - intros tree Hi Hc. rewrite (Hd Hi), guarded_after. cbn [run]. unfold Eval. rewrite Hc.
    rewrite outcome_bind, after_bind. cbn [outcome LogInput emit modify fst].
    rewrite tree_Eval_outcome, tree_Eval_after.
    cbn [after LogInput emit modify snd record with_sim with_Inject sim trace w1].
    destruct ((TreeEval tree (sim w)).2) as [msg|];
      cbn [record with_sim with_Inject sim trace w1].
    + split; [done|]. exists [EvFault (CmdEval (Sprint arg)) msg].
      by rewrite <-!app_assoc.
    + split; [done|]. exists []. by rewrite <-!app_assoc.
  - intros err Hi Hc. rewrite (Hd Hi), guarded_after. cbn [run]. unfold Eval. rewrite Hc.
    cbn [outcome after LogOutput emit modify fst snd record with_Inject sim trace w1].
    split; [done|]. by rewrite <-!app_assoc.
Qed.

Lemma renderQuant_event_after arg w :
  after (serveEvent "renderQuant" arg) w =
  mk_World
    (mk_guistate
       (<["renderDoc" := VString (default "" (Doc (sim w) !! Sprint arg))]>
          (<["renderQuant" := arg]> (values (GUI w))))
       (disabled (GUI w)) (Quants (GUI w)) (Params (GUI w))
       (wrap_int (eventCacheBreaker (GUI w) + 1)) (busy (GUI w)))
    (keepalive w) (ticks w) (sim w) (Inject w) (trace w ++ [EvEvent "renderQuant"]).
Proof.
  rewrite serveEvent_after. change (handler "renderQuant") with (Some on_renderQuant).
  cbv beta iota. unfold on_renderQuant, after, StringValue, Set_, get, modify, onAnyEvent,
    mbind, M_bind.
  cbn [fst snd GUI with_GUI record sim]. by rewrite page_Value_Set_eq.
Qed.

(** An event on the quantity selector. The handler shows under renderDoc
    the documentation that World.Doc holds for the selected name, and the
    empty text for a name that has none; it hands nothing to the bridge
    and does not touch the simulation. The refresh that follows builds the
    display identifier from the selected name and the incremented cache
    breaker. *)
Theorem renderQuant_event_shows_doc (arg : Value) (w : World) :
  let w' := after (serveEvent "renderQuant" arg) w in
  values (GUI w') !! "renderQuant" = Some arg ∧
  values (GUI w') !! "renderDoc" =
    Some (VString (default "" (Doc (sim w) !! Sprint arg))) ∧
  (Doc (sim w) !! Sprint arg = None →
     values (GUI w') !! "renderDoc" = Some (VString "")) ∧
  (∀ id, id ≠ "renderQuant" → id ≠ "renderDoc" →
     values (GUI w') !! id = values (GUI w) !! id) ∧
  sends (trace w') = sends (trace w) ∧ sim w' = sim w ∧ Inject w' = Inject w ∧
  values (GUI (after snapshot w')) !! "display" =
    Some (VString (display_id (Sprint arg) (Sprint (page_Value "renderComp" (GUI w)))
                     (Sprint_int (NSteps (Solver (sim w))))
                     (wrap_int (eventCacheBreaker (GUI w) + 1)))).
Proof.
  cbn zeta. rewrite snapshot_display, renderQuant_event_after.
  cbn [GUI values sim trace Inject eventCacheBreaker].
  split; [by rewrite lookup_insert_ne, lookup_insert_eq|].
  split; [apply lookup_insert_eq|]. split.
  { intros ->. apply lookup_insert_eq. }
  split.
  { intros id H1 H2. by rewrite !lookup_insert_ne. }
  split; [by rewrite sends_record, app_nil_r|]. split; [done|]. split; [done|].
  unfold page_Value. cbn [values].
  rewrite (lookup_insert_ne _ "renderDoc" "renderQuant") by done.
  rewrite lookup_insert_eq.
  by rewrite !(lookup_insert_ne _ _ "renderComp") by done.
Qed.

End EventFacts.

Section MeshFacts.
Context `{Collaborators}.

Lemma InjectAndWait_alone c w :
  Inject w = [] →
  after (InjectAndWait c) w =
  record (EvRelease c)
    (after (guarded c) (with_Inject (λ _, []) (record (EvSend c true) w))).
Proof. intros Hi. by rewrite InjectAndWait_after, Hi. Qed.

(** The setmesh closure: one call of [SetMesh] with the numbers of the nine
    boxes. *)
Lemma setmesh_run w :
  after (run CmdSetMesh) w =
    record EvSetMesh (with_sim (λ _, (mesh_request (GUI w) (sim w)).1) w).
Proof. apply call_SetMesh_after. Qed.

Lemma mesh_request_Set id v g s :
  id ∉ meshboxes → mesh_request (page_Set id v g) s = mesh_request g s.
Proof.
  intros Hid. unfold meshboxes in Hid.
  repeat (apply not_elem_of_cons in Hid as [? Hid]).
  unfold mesh_request. by rewrite !page_Value_Set_ne by done.
Qed.

Lemma on_setmesh_facts w :
  let w' := after on_setmesh w in
  disabled (GUI w') = <["setmesh" := true]> (disabled (GUI w)) ∧
  values (GUI w') !! "setmeshwarn" = Some (VString "mesh up to date") ∧
  sends (trace w') = sends (trace w) ++ [mk_Task CmdSetMesh true] ∧
  runs (trace w') = runs (trace w) ++ (task_cmd <$> Inject w) ++ [CmdSetMesh] ∧
  Inject w' = [] ∧
  eventCacheBreaker (GUI w') = eventCacheBreaker (GUI w) ∧
  busy (GUI w') = busy (GUI w) ∧
  (Inject w = [] →
     sim w' = (mesh_request (GUI w) (sim w)).1 ∧
     values (GUI w') = <["setmeshwarn" := VString "mesh up to date"]> (values (GUI w)) ∧
     ∃ tr, trace w' =
           trace w ++ [EvSend CmdSetMesh true; EvRun CmdSetMesh; EvSetMesh] ++ tr ++
           [EvRelease CmdSetMesh] ∧
           Forall (λ e, e ≠ EvSetMesh) tr).
Proof.
  cbn zeta. destruct (on_setmesh_after w) as [-> _].
  destruct (InjectAndWait_facts CmdSetMesh (after (Disable "setmesh" true) w))
    as (_ & _ & Hd & Hc & Hb & _ & _ & Hi & Hs & Hr & _).
  pose proof (InjectAndWait_alone CmdSetMesh (after (Disable "setmesh" true) w)) as Ha.
  revert Hd Hc Hb Hi Hs Hr Ha.
  generalize (after (InjectAndWait CmdSetMesh) (after (Disable "setmesh" true) w)).
  intros w1 Hd Hc Hb Hi Hs Hr Ha.
  cbn [after Set_ Disable modify snd with_GUI GUI page_Set page_Disable values disabled
       eventCacheBreaker busy Inject trace sim] in *.
  split; [done|]. split; [apply lookup_insert_eq|].
  split; [done|]. split; [done|]. split; [done|]. split; [done|]. split; [done|].
  intros Hw. rewrite (Ha Hw), guarded_after, setmesh_run.
  cbn [with_Inject record GUI sim].
  destruct (outcome _ _) as [[]|msg];
    cbn [record with_sim with_Inject with_GUI GUI sim values trace page_Disable].
  - split; [done|]. split; [done|]. exists []. rewrite <-!app_assoc. by split.
  - split; [done|]. split; [done|]. exists [EvFault CmdSetMesh msg].
    rewrite <-!app_assoc. split; [done|]. by repeat constructor.
Qed.

Lemma setmesh_event_after arg w :
  after (serveEvent "setmesh" arg) w =
  after onAnyEvent
    (after on_setmesh (with_GUI (page_Set "setmesh" arg) (record (EvEvent "setmesh") w))).
Proof. by rewrite serveEvent_after. Qed.

(** A click on the setmesh button. The handler disables the button, hands
    one command to the bridge and waits for it, then shows that the mesh is
    up to date. With nothing pending before it, the command calls
    [SetMesh] exactly once, with the cell counts, the cell sizes scaled by
    1e-9 and the periodicity as the nine boxes of the page hold them, and
    the simulation the handler leaves is the one that call produced; no
    element other than the button's value and the note changes. *)
Theorem setmesh_event_updates_mesh (arg : Value) (w : World) :
  let w' := after (serveEvent "setmesh" arg) w in
  outcome (serveEvent "setmesh" arg) w = Ret tt ∧
  disabled (GUI w') !! "setmesh" = Some true ∧
  values (GUI w') !! "setmeshwarn" = Some (VString "mesh up to date") ∧
  sends (trace w') = sends (trace w) ++ [mk_Task CmdSetMesh true] ∧
  runs (trace w') = runs (trace w) ++ (task_cmd <$> Inject w) ++ [CmdSetMesh] ∧
  Inject w' = [] ∧
  (Inject w = [] →
     sim w' = (mesh_request (GUI w) (sim w)).1 ∧
     values (GUI w') =
       <["setmeshwarn" := VString "mesh up to date"]> (<["setmesh" := arg]> (values (GUI w))) ∧
     ∃ tr, trace w' =
           trace w ++ [EvEvent "setmesh"; EvSend CmdSetMesh true; EvRun CmdSetMesh;
                       EvSetMesh] ++ tr ++ [EvRelease CmdSetMesh] ∧
           Forall (λ e, e ≠ EvSetMesh) tr).
Proof.
  cbn zeta. split; [by destruct (serveEvent_facts "setmesh" arg w) as [? _]|].
  rewrite setmesh_event_after.
  destruct (on_setmesh_facts
              (with_GUI (page_Set "setmesh" arg) (record (EvEvent "setmesh") w)))
    as (Hd & Hv & Hs & Hr & Hi & _ & _ & Hsim).
  revert Hd Hv Hs Hr Hi Hsim.
  generalize (after on_setmesh
                (with_GUI (page_Set "setmesh" arg) (record (EvEvent "setmesh") w))).
  intros w1 Hd Hv Hs Hr Hi Hsim.
  cbn [after onAnyEvent modify snd with_GUI record GUI values disabled Inject trace
       sim page_Set] in *.
  rewrite sends_record, app_nil_r in Hs. rewrite runs_record, app_nil_r in Hr.
  split; [by rewrite Hd, lookup_insert_eq|].
  split; [done|]. split; [done|]. split; [done|]. split; [done|].
  intros Hw. destruct (Hsim Hw) as (-> & -> & tr & -> & Htr).
  split; [|split; [done|]].
  - apply f_equal. apply mesh_request_Set. unfold meshboxes.
    by repeat (apply not_elem_of_cons; split; [done|]); apply not_elem_of_nil.
  - exists tr. by rewrite <-!app_assoc.
Qed.

Lemma meshbox_handler id : id ∈ meshboxes → handler id = Some warnmesh.
Proof.
  unfold meshboxes. intros Hid.
  repeat (apply elem_of_cons in Hid as [->|Hid]; [reflexivity|]).
  by apply elem_of_nil in Hid.
Qed.

Lemma meshbox_event_after id arg w :
  id ∈ meshboxes →
  after (serveEvent id arg) w =
  mk_World
    (mk_guistate (<["setmeshwarn" := VString MESHWARN]> (<[id := arg]> (values (GUI w))))
       (<["setmesh" := false]> (disabled (GUI w))) (Quants (GUI w)) (Params (GUI w))
       (wrap_int (eventCacheBreaker (GUI w) + 1)) (busy (GUI w)))
    (keepalive w) (ticks w) (sim w) (Inject w) (trace w ++ [EvEvent id]).
Proof.
  intros Hid. rewrite serveEvent_after, (meshbox_handler id Hid). done.
Qed.

(** The setmesh button follows the mesh boxes. [PrepareServer] leaves the
    button disabled. An edit of any of the nine mesh boxes enables it and
    shows the warning, stores the new number in the box, and neither hands
    anything to the bridge nor touches the simulation: the mesh changes
    only on the click. The click then disables the button again, replaces
    the warning, and the mesh request it makes carries the edited
    number. *)
Theorem meshbox_edit_arms_setmesh (id : string) (arg click : Value) (w : World) :
  id ∈ meshboxes →
  let w1 := after PrepareServer w in
  let w2 := after (serveEvent id arg) w1 in
  let w3 := after (serveEvent "setmesh" click) w2 in
  disabled (GUI w1) !! "setmesh" = Some true ∧
  disabled (GUI w2) !! "setmesh" = Some false ∧
  values (GUI w2) !! "setmeshwarn" = Some (VString MESHWARN) ∧
  page_Value id (GUI w2) = arg ∧
  sim w2 = sim w ∧ Inject w2 = Inject w ∧ sends (trace w2) = sends (trace w) ∧
  disabled (GUI w3) !! "setmesh" = Some true ∧
  values (GUI w3) !! "setmeshwarn" = Some (VString "mesh up to date") ∧
  (Inject w = [] → sim w3 = (mesh_request (GUI w2) (sim w)).1).
Proof.
  intros Hid. cbn zeta.
  assert (id ≠ "setmeshwarn") as Hne.
  { intros ->. unfold meshboxes in Hid.
    repeat (apply elem_of_cons in Hid as [?|Hid]; [done|]). by apply elem_of_nil in Hid. }
  rewrite setmesh_event_after.
  destruct (on_setmesh_facts
              (with_GUI (page_Set "setmesh" click)
                 (record (EvEvent "setmesh") (after (serveEvent id arg) (after PrepareServer w)))))
    as (Hd & Hv & _ & _ & _ & _ & _ & Hsim).
  revert Hd Hv Hsim.
  generalize (after on_setmesh
                (with_GUI (page_Set "setmesh" click)
                   (record (EvEvent "setmesh")
                      (after (serveEvent id arg) (after PrepareServer w))))).
  rewrite (meshbox_event_after id arg _ Hid).
  intros w3 Hd Hv Hsim.
  cbn [after PrepareServer Disable onAnyEvent modify snd with_GUI record GUI values
       disabled Inject trace sim page_Set page_Disable] in *.
  split; [apply lookup_insert_eq|]. split; [apply lookup_insert_eq|].
  split; [apply lookup_insert_eq|]. split.
  { unfold page_Value. cbn [values].
    by rewrite lookup_insert_ne, lookup_insert_eq by done. }
  split; [done|]. split; [done|]. split; [by rewrite sends_record, app_nil_r|].
  split; [by rewrite Hd, lookup_insert_eq|]. split; [done|].
  intros Hw. destruct (Hsim Hw) as (-> & _). apply f_equal.
  apply (mesh_request_Set "setmesh"). unfold meshboxes.
  by repeat (apply not_elem_of_cons; split; [done|]); apply not_elem_of_nil.
Qed.

End MeshFacts.

Section ControlFacts.
Context `{Collaborators}.











End ControlFacts.

(** * Further properties of the httpfs client *)

Section ClientFacts.
Context `{Net}.

(** The URL of the OPEN request of [OpenFile]. *)
Lemma OpenFile_cases (f : Client) (nm : string) (flag perm : Z) :
  let url := URL_String (mk_URL "http" (serverAddr f) nm
               ("flag=" +:+ Sprint_int flag +:+ "&perm=" +:+ Sprint_int (perm `mod` 2 ^ 32))) in
  match do "OPEN" url with
  | Panic e => OpenFile f nm flag perm = Panic e
  | Ret None =>
      OpenFile f nm flag perm = Panic "invalid memory address or nil pointer dereference"
  | Ret (Some resp) =>
      if decide (StatusCode resp ≠ StatusOK) then
        OpenFile f nm flag perm =
        Ret (None, Some (ErrStatus nm (StatusCode resp) (Header_Get (Header resp) X_ERROR)))
      else if decide (readUInt (Body resp) < 0) then
        OpenFile f nm flag perm = Ret (None, Some (ErrInvalidArgument nm))
      else
        OpenFile f nm flag perm =
        Ret (Some (mk_File f (mk_URL "http" (serverAddr f)
                                (Sprint_int (readUInt (Body resp))) "")
                     nm (readUInt (Body resp))), None)
  end.
Proof.
  cbn zeta. unfold OpenFile. cbn zeta.
  destruct (do "OPEN" _) as [[resp|]|e]; [|done..].
  by repeat case_decide.
Qed.

(** When [OpenFile] returns a file. The result is a file with a nil error
    exactly when the server answered 200 and the body scans as an integer
    that is not negative; the file then carries that integer as its
    descriptor, the name asked for, the client, and the URL of the
    descriptor on the client's server. Whatever [OpenFile] returns is a
    file or an error, never both and never neither. *)
Theorem OpenFile_returns_file_iff (f : Client) (nm : string) (flag perm : Z) :
  let url := URL_String (mk_URL "http" (serverAddr f) nm
               ("flag=" +:+ Sprint_int flag +:+ "&perm=" +:+ Sprint_int (perm `mod` 2 ^ 32))) in
  (∀ file, OpenFile f nm flag perm = Ret (Some file, None) ↔
     ∃ resp n, do "OPEN" url = Ret (Some resp) ∧ StatusCode resp = StatusOK ∧
               Fscan (Body resp) = Some n ∧ 0 ≤ n ∧
               file = mk_File f (mk_URL "http" (serverAddr f) (Sprint_int n) "") nm n) ∧
  (∀ file err, OpenFile f nm flag perm = Ret (file, err) →
     (is_Some file ↔ err = None)).
Proof.
  cbn zeta. pose proof (OpenFile_cases f nm flag perm) as Hc. cbn zeta in Hc.
  split.
  - intros file. split.
    + intros Ho. destruct (do "OPEN" _) as [[resp|]|e]; [|congruence..].
      repeat case_decide; rewrite Hc in Ho; try done.
      injection Ho as <-. exists resp, (readUInt (Body resp)).
      split; [done|]. split; [by destruct (decide (StatusCode resp = StatusOK))|].
      unfold readUInt in *. destruct (Fscan (Body resp)) as [n|]; [|lia].
      split; [done|]. split; [lia|done].
    + intros (resp & n & Hdo & Hs & Hn & Hpos & ->). rewrite Hdo in Hc.
      assert (readUInt (Body resp) = n) as Hr by (unfold readUInt; by rewrite Hn).
      rewrite decide_False in Hc by (by intros ?).
      rewrite decide_False in Hc by lia. by rewrite Hc, Hr.
  - intros file err Ho. destruct (do "OPEN" _) as [[resp|]|e]; [|congruence..].
    repeat case_decide; rewrite Hc in Ho; injection Ho as <- <-;
      (split; [by intros [? ?] | done]) || (split; [done | by eauto]).
Qed.

(** A failed round trip as [OpenFile] reports it. When the request is
    sent and the round trip fails, [OpenFile] returns no file and the
    error for status 418. The text of the transport error is stored under
    the name X_ERROR as it is spelled, while [Header.Get] looks under the
    canonical spelling of the name: the error carries the text when
    X_ERROR is in canonical form, and the empty text otherwise. *)
Theorem OpenFile_transport_error (f : Client) (nm : string) (flag perm : Z)
    (req : Request) (e : string) :
  NewRequest "OPEN"
    (URL_String (mk_URL "http" (serverAddr f) nm
       ("flag=" +:+ Sprint_int flag +:+ "&perm=" +:+ Sprint_int (perm `mod` 2 ^ 32))))
    = inl req →
  (client_Do req).2 = Some e →
  OpenFile f nm flag perm =
  Ret (None, Some (ErrStatus nm StatusTeapot
                     (if decide (CanonicalHeaderKey X_ERROR = X_ERROR) then e else ""))).
Proof.
  intros Hreq He. pose proof (OpenFile_cases f nm flag perm) as Hc. cbn zeta in Hc.
  destruct (do_returns _ _ _ Hreq) as (resp & Hdo & Hresp).
  rewrite Hdo in Hc. rewrite He in Hresp. subst resp.
  rewrite decide_True in Hc by done. rewrite Hc. do 4 f_equal.
  unfold Header_Get. cbn [Header]. case_decide as Hk.
  - by rewrite Hk, lookup_singleton_eq.
  - by rewrite lookup_singleton_ne.
Qed.

Lemma OpenFile_file_fields (f : Client) (nm : string) (flag perm : Z) file err :
  OpenFile f nm flag perm = Ret (file, err) →
  (is_Some file ↔ err = None) ∧
  (∀ fl, file = Some fl →
     client fl = f ∧ name fl = nm ∧ 0 ≤ fd fl ∧
     u fl = mk_URL "http" (serverAddr f) (Sprint_int (fd fl)) "").
Proof.
  intros Ho. pose proof (OpenFile_cases f nm flag perm) as Hc. cbn zeta in Hc.
  destruct (do "OPEN" _) as [[resp|]|e]; [|congruence..].
  repeat case_decide; rewrite Hc in Ho; injection Ho as <- <-.
  - split; [split; [by intros [? ?] | done]|]. by intros fl.
  - split; [split; [by intros [? ?] | done]|]. by intros fl.
  - split; [split; [done | by eauto]|]. intros fl [= <-]. cbn. repeat split. lia.
Qed.

Lemma OpenFile_returns_or_panics (f : Client) (nm : string) (flag perm : Z) :
  let url := URL_String (mk_URL "http" (serverAddr f) nm
               ("flag=" +:+ Sprint_int flag +:+ "&perm=" +:+ Sprint_int (perm `mod` 2 ^ 32))) in
  (∀ req, NewRequest "OPEN" url = inl req →
          ∃ file err, OpenFile f nm flag perm = Ret (file, err)) ∧
  (∀ e, NewRequest "OPEN" url = inr e → OpenFile f nm flag perm = Panic e).
Proof.
  cbn zeta. pose proof (OpenFile_cases f nm flag perm) as Hc. cbn zeta in Hc. split.
  - intros req Hreq. destruct (do_returns _ _ _ Hreq) as (resp & Hdo & _).
    rewrite Hdo in Hc. repeat case_decide; eauto.
  - intros e Hreq. unfold do in Hc. rewrite Hreq in Hc. exact Hc.
Qed.

(** [Open] and [Create]. Each returns exactly when the OPEN request can be
    constructed, and panics with the error of http.NewRequest when it
    cannot. What they return is a file or an error, never both and never
    neither; a file they return belongs to the client, has the name that
    was asked for and a descriptor that is not negative, and its URL is
    the descriptor's path on the client's server. *)
Theorem Open_Create_file_or_error (f : Client) (nm : string) :
  let url flag perm :=
    URL_String (mk_URL "http" (serverAddr f) nm
      ("flag=" +:+ Sprint_int flag +:+ "&perm=" +:+ Sprint_int (perm `mod` 2 ^ 32))) in
  let rdwr := Z.lor (Z.lor O_RDWR O_CREATE) O_TRUNC in
  (∀ req, NewRequest "OPEN" (url O_RDONLY 0) = inl req →
          ∃ file err, Open f nm = Ret (file, err)) ∧
  (∀ e, NewRequest "OPEN" (url O_RDONLY 0) = inr e → Open f nm = Panic e) ∧
  (∀ req, NewRequest "OPEN" (url rdwr 438) = inl req →
          ∃ file err, Create f nm = Ret (file, err)) ∧
  (∀ e, NewRequest "OPEN" (url rdwr 438) = inr e → Create f nm = Panic e) ∧
  (∀ file err, Open f nm = Ret (file, err) ∨ Create f nm = Ret (file, err) →
     (is_Some file ↔ err = None) ∧
     (∀ fl, file = Some fl →
        client fl = f ∧ name fl = nm ∧ 0 ≤ fd fl ∧
        u fl = mk_URL "http" (serverAddr f) (Sprint_int (fd fl)) "")).
Proof.
  cbn zeta.
  destruct (OpenFile_returns_or_panics f nm O_RDONLY 0) as [Ho1 Ho2].
  destruct (OpenFile_returns_or_panics f nm (Z.lor (Z.lor O_RDWR O_CREATE) O_TRUNC) 438)
    as [Hc1 Hc2].
  split; [exact Ho1|]. split; [exact Ho2|]. split; [exact Hc1|]. split; [exact Hc2|].
  intros file err [Ho|Ho]; exact (OpenFile_file_fields _ _ _ _ _ _ Ho).
Qed.

(** [Dial]. It returns a client when the address resolves and an error
    that names the address when it does not, never both and never
    neither. The client keeps the address as given: every file later
    opened through it lives on that address. *)
Theorem Dial_client_keeps_address `{Resolver} (addr : string) :
  (∀ c, (Dial addr).1 = Some c ↔ ResolveTCPAddr addr = None ∧ c = mk_Client addr) ∧
  (∀ e, (Dial addr).2 = Some e ↔
        ∃ err, ResolveTCPAddr addr = Some err ∧
               e = "httpfs: dial " +:+ addr +:+ ": " +:+ err) ∧
  (is_Some (Dial addr).1 ↔ (Dial addr).2 = None) ∧
  (∀ c nm flag perm fl,
     (Dial addr).1 = Some c → OpenFile c nm flag perm = Ret (Some fl, None) →
     client fl = c ∧ Host (u fl) = addr ∧ Scheme (u fl) = "http").
Proof.
  unfold Dial. destruct (ResolveTCPAddr addr) as [err|]; cbn [fst snd].
  - split; [|split; [|split]].
    + intros c. split; [done | by intros [? _]].
    + intros e. split; [intros [= <-]; eauto | by intros (? & [= <-] & ->)].
    + split; [by intros [? ?] | done].
    + by intros c nm flag perm fl.
  - split; [|split; [|split]].
    + intros c. split; [by intros [= <-] | by intros [_ ->]].
    + intros e. split; [done | by intros (? & ? & _)].
    + split; [done | eauto].
    + intros c nm flag perm fl [= <-] Ho.
      destruct (OpenFile_file_fields _ _ _ _ _ _ Ho) as (_ & Hf).
      destruct (Hf fl eq_refl) as (-> & _ & _ & ->). done.
Qed.

End ClientFacts.

Section PollFacts.
Context `{Collaborators}.

Lemma unhandled id :
  id ∉ ("cli" :: "setmesh" :: "renderQuant" :: meshboxes) → handler id = None.
Proof.
  intros Hid. apply not_elem_of_cons in Hid as [H1 Hid].
  apply not_elem_of_cons in Hid as [H2 Hid]. apply not_elem_of_cons in Hid as [H3 Hid].
  unfold handler. by repeat case_decide.
Qed.

(** An event on an element without handler. [PrepareServer] binds handlers
    to the console, the nine mesh boxes, the setmesh button and the
    quantity selector only. An event on any other element stores the
    element's new value and increments the cache breaker, and that is
    all: nothing is handed to the bridge, the simulation, the attributes
    and the flags stay as they were. *)
Theorem event_without_handler_only_stores (id : string) (arg : Value) (w : World) :
  id ∉ ("cli" :: "setmesh" :: "renderQuant" :: meshboxes) →
  outcome (serveEvent id arg) w = Ret tt ∧
  after (serveEvent id arg) w =
  mk_World
    (mk_guistate (<[id := arg]> (values (GUI w))) (disabled (GUI w)) (Quants (GUI w))
       (Params (GUI w)) (wrap_int (eventCacheBreaker (GUI w) + 1)) (busy (GUI w)))
    (keepalive w) (ticks w) (sim w) (Inject w) (trace w ++ [EvEvent id]).
Proof.
  intros Hid. split; [by destruct (serveEvent_facts id arg w) as [? _]|].
  by rewrite serveEvent_after, (unhandled id Hid).
Qed.


End PollFacts.

(** * Instances of the further properties *)

Lemma meshbox_edit_arms_setmesh_witness :
  ("nx" ∈ meshboxes) ∧
  disabled (GUI (after (@serveEvent _ engine.example.collaborators "nx" (VInt 64))
                   (after PrepareServer engine.example.w0))) !! "setmesh" = Some false.
Proof.
  assert ("nx" ∈ meshboxes) as Hid by apply list_elem_of_here.
  split; [exact Hid|].
  exact (proj1 (proj2
    (@meshbox_edit_arms_setmesh _ engine.example.collaborators "nx" (VInt 64) (VString "")
       engine.example.w0 Hid))).
Defined.


Lemma OpenFile_transport_error_witness :
  @NewRequest example_Net "OPEN" "http://host/down" = inl ("OPEN", "http://host/down") ∧
  (@client_Do example_Net ("OPEN", "http://host/down")).2 = Some "connection refused" ∧
  @OpenFile example_Net (mk_Client "host") "/down" 0 0 =
    Ret (None, Some (ErrStatus "/down" StatusTeapot
                       (if decide (@CanonicalHeaderKey example_Net (@X_ERROR example_Net) =
                                   @X_ERROR example_Net)
                        then "connection refused" else ""))).
Proof.
  split; [reflexivity|]. split; [reflexivity|].
  apply (@OpenFile_transport_error example_Net (mk_Client "host") "/down" 0 0
           ("OPEN", "http://host/down") "connection refused"); reflexivity.
Defined.

Example Open_returns_descriptor :
  @Open example_Net (mk_Client "host") "/ok" =
    Ret (Some (mk_File (mk_Client "host") (mk_URL "http" "host" (Sprint_int 3) "") "/ok" 3),
         None) ∧
  @Open example_Net (mk_Client "host") "/missing" =
    Ret (None, Some (ErrStatus "/missing" 404 "")).
Proof. split; reflexivity. Qed.



Lemma event_without_handler_only_stores_witness :
  ("renderComp" ∉ ("cli" :: "setmesh" :: "renderQuant" :: meshboxes)) ∧
  outcome (@serveEvent _ engine.example.collaborators "renderComp" (VString "x"))
    engine.example.w0 = Ret tt.
Proof.
  assert ("renderComp" ∉ ("cli" :: "setmesh" :: "renderQuant" :: meshboxes)) as Hid.
  { unfold meshboxes. repeat (apply not_elem_of_cons; split; [done|]).
    apply not_elem_of_nil. }
  split; [exact Hid|].
  exact (proj1 (@event_without_handler_only_stores _ engine.example.collaborators
                  "renderComp" (VString "x") engine.example.w0 Hid)).
Defined.
